(** * ci_info/push.py: task records, label summaries and regression inference

    A shallow embedding of [src/ci_info/push.py].  Python classes become
    modules ([Task], [LabelSummary], [Push]); dicts and sets become stdpp's
    [gmap] and [gset]; the two [while True] loops take a fuel argument and
    report [OutOfFuel] when it is used up; Python exceptions are the
    [Raised] outcome. *)

From Stdlib Require Import ZArith Lia.
From stdpp Require Import base option list gmap sets strings.

Local Open Scope Z_scope.

(** ** Outcomes of a computation: value, exception, or fuel used up *)

Inductive exn := AssertionError | KeyError | OverflowError.

Inductive outcome (A : Type) : Type :=
| Done (a : A)
| Raised (e : exn)
| OutOfFuel.

Arguments Done {A} a.
Arguments Raised {A} e.
Arguments OutOfFuel {A}.

#[global] Instance outcome_ret : MRet outcome := fun A a => Done a.

#[global] Instance outcome_bind : MBind outcome := fun A B k m =>
  match m with
  | Done a => k a
  | Raised e => Raised e
  | OutOfFuel => OutOfFuel
  end.

(** ** class Status(Enum) *)

Inductive Status := PASS | FAIL | INTERMITTENT.

#[global] Instance Status_eq_dec : EqDecision Status.
Proof. solve_decision. Defined.

(** ** @dataclass class Task *)

Module Task.

Record t := mk {
  label : string;
  duration : Z;
  result : string;
  classification : string
}.

(** [self.result in ('busted', 'exception', 'testfailed')] *)
Definition failed (self : t) : bool :=
  bool_decide (result self ∈ ["busted"; "exception"; "testfailed"]%string).

End Task.

(** ** @dataclass class LabelSummary *)

Module LabelSummary.

Record t := mk {
  label : string;
  tasks : list Task.t
}.

(** [assert all(t.label == self.label for t in self.tasks)] *)
Definition post_init (self : t) : outcome unit :=
  if forallb (fun t => bool_decide (Task.label t = label self)) (tasks self)
  then Done tt
  else Raised AssertionError.

(** The dataclass constructor: fields are stored, then [__post_init__]
    runs. *)
Definition new (label : string) (tasks : list Task.t) : outcome t :=
  let self := mk label tasks in
  _ ← post_init self; mret self.

(** [set(t.classification for t in self.tasks if t.failed)] *)
Definition classifications (self : t) : gset string :=
  list_to_set (Task.classification <$> filter (fun t => Task.failed t) (tasks self)).

(** [set(t.result for t in self.tasks)] *)
Definition results (self : t) : gset string :=
  list_to_set (Task.result <$> tasks self).

(** The per-task verdict computed at the top of the loop body. *)
Definition task_status (task : Task.t) : Status :=
  if Task.failed task then FAIL else PASS.

(** One iteration of the loop in [status]; [None] is Python's [None]. *)
Definition status_step (overall_status : option Status) (task : Task.t)
  : option Status :=
  let status := task_status task in
  match overall_status with
  | None => Some status
  | Some o => if decide (status ≠ o) then Some INTERMITTENT else overall_status
  end.

Definition status (self : t) : option Status :=
  foldl status_step None (tasks self).

End LabelSummary.

(** ** The external collaborators

    The properties below read two things from the outside: the JSON object
    of a revision on hg.mozilla.org and the rows of the [push_results]
    query.  Their answers for past revisions do not change, so they are
    functions of the request; the memoized properties of the source are then
    plain functions too.  Rows carry the four optional columns of the query,
    with the types of the [Task] dataclass.  The decision artifacts, and the
    three label sets read from them, take no part in regression inference;
    they have a world of their own, [DecisionWorld], and are modelled in the
    module [Decision] below. *)

Record Hgmo := {
  hg_pushid : Z;
  hg_parents : list string;
  hg_backedoutby : option string
}.

Record Kwargs := {
  kw_label : option string;
  kw_duration : option Z;
  kw_result : option string;
  kw_classification : option string
}.

Record World := {
  hgmo_json : string -> string -> Hgmo;   (* branch, rev *)
  push_results : string -> list Kwargs    (* rev *)
}.

(** [round_half_even n d], for [d > 0]: the integer nearest to [n / d], the
    even one of the two when [n / d] lies halfway between them. *)
Definition round_half_even (n d : Z) : Z :=
  let q := n / d in
  let r := n mod d in
  if 2 * r <? d then q
  else if d <? 2 * r then q + 1
  else if Z.even q then q else q + 1.

(** [int(x / 3600)] for an int [x > 0].  [x / 3600] is Python's true
    division of ints: the binary64 number nearest to the exact quotient,
    ties to the even significand, and [OverflowError] when that number would
    be [2^1024] or more; [int] then drops the fraction.

    With [k = floor (log2 (4096 x / 3600))], the quotient lies between
    [2^(k-12)] and [2^(k-11)], where binary64 numbers are the multiples
    [m * 2^(k-64)] with [2^52 <= m <= 2^53].  So [m] is
    [x / (3600 * 2^(k-64))] rounded, the quotient as a binary64 number is
    [m * 2^k / 2^64], and [int] of it is the integer part of that. *)
Definition hours_of_positive (seconds : Z) : outcome Z :=
  let k := Z.log2 (seconds * 4096 / 3600) in
  let m := round_half_even (seconds * 2 ^ 64) (3600 * 2 ^ k) in
  if 2 ^ 1088 <=? m * 2 ^ k then Raised OverflowError
  else Done (m * 2 ^ k / 2 ^ 64).

(** [int(x / 3600)] for any int [x]: [0.0] for [0], and for a negative [x]
    the opposite of the result for [-x] (rounding is symmetric and [int]
    truncates toward zero). *)
Definition hours (seconds : Z) : outcome Z :=
  if seconds =? 0 then Done 0
  else if 0 <? seconds then hours_of_positive seconds
  else h ← hours_of_positive (- seconds); mret (- h).

(** The quotient of [x > 0] by 3600 as a binary64 number, times [2^64]:
    the significand times [2^k]. *)
Definition quotient64 (x : Z) : Z :=
  round_half_even (x * 2 ^ 64) (3600 * 2 ^ Z.log2 (x * 4096 / 3600))
  * 2 ^ Z.log2 (x * 4096 / 3600).

(** ** class Push *)

Module Push.

Record t := mk {
  rev : string;
  branch : string
}.

(** [Push(rev)], with the default [branch='autoland']. *)
Definition new (rev : string) : t := mk rev "autoland".

Section WithWorld.

Variable w : World.

Definition _hgmo (self : t) : Hgmo := hgmo_json w (branch self) (rev self).

(** [self._hgmo.get('backedoutby') or None] *)
Definition backedoutby (self : t) : option string :=
  match hg_backedoutby (_hgmo self) with
  | Some s => if decide (s = EmptyString) then None else Some s
  | None => None
  end.

Definition backedout (self : t) : bool :=
  match backedoutby self with Some _ => true | None => false end.

Definition pushid (self : t) : Z := hg_pushid (_hgmo self).

(** *** parent *)

(** How the [for rev in other._hgmo['parents']] loop ends: by [return], or
    by running off the list with the current value of [other]. *)
Inductive for_exit := Return (parent : t) | Exhausted (other : t).

Fixpoint parent_for (self : t) (revs : list string) (other : t) : for_exit :=
  match revs with
  | [] => Exhausted other
  | rev :: revs' =>
      let parent := new rev in
      if decide (pushid parent ≠ pushid self) then Return parent
      else parent_for self revs' parent
  end.

(** The [while True] loop, one unit of fuel per iteration. *)
Fixpoint parent_while (fuel : nat) (self other : t) : outcome t :=
  match fuel with
  | O => OutOfFuel
  | S fuel' =>
      match parent_for self (hg_parents (_hgmo other)) other with
      | Return parent => Done parent
      | Exhausted other' => parent_while fuel' self other'
      end
  end.

Definition parent (fuel : nat) (self : t) : outcome t :=
  parent_while fuel self self.

(** *** tasks *)

(** One iteration of the loop over the rows: the two [continue] guards,
    then a [Task] built from the row's keywords is appended. *)
Definition tasks_step (tasks : list Task.t) (kwargs : Kwargs) : list Task.t :=
  match kw_label kwargs, kw_duration kwargs, kw_result kwargs,
        kw_classification kwargs with
  | Some l, Some d, Some r, Some c =>
      if d <=? 0 then tasks else tasks ++ [Task.mk l d r c]
  | _, _, _, _ => tasks
  end.

Definition tasks (self : t) : list Task.t :=
  foldl tasks_step [] (push_results w (rev self)).

Definition task_labels (self : t) : gset string :=
  list_to_set (Task.label <$> tasks self).

(** *** label_summaries *)

(** [labels[task.label].append(task)] on a [defaultdict(list)]. *)
Definition group_step (labels : gmap string (list Task.t)) (task : Task.t)
  : gmap string (list Task.t) :=
  <[Task.label task := default [] (labels !! Task.label task) ++ [task]]> labels.

(** One entry of the dict comprehension
    [{label: LabelSummary(label, tasks) for label, tasks in labels.items()}]. *)
Definition summary_step (label : string) (tasks : list Task.t)
    (acc : outcome (gmap string LabelSummary.t))
  : outcome (gmap string LabelSummary.t) :=
  labels ← acc;
  summary ← LabelSummary.new label tasks;
  mret (<[label := summary]> labels).

Definition label_summaries (self : t) : outcome (gmap string LabelSummary.t) :=
  let labels := foldl group_step ∅ (tasks self) in
  map_fold summary_step (Done ∅) labels.

(** *** duration, scheduled_duration *)

Definition duration (self : t) : outcome Z :=
  hours (foldl (fun acc t => acc + Task.duration t) 0 (tasks self)).

Definition scheduled_step (st : gset string * Z) (task : Task.t)
  : gset string * Z :=
  let '(seen, duration) := st in
  if decide (Task.label task ∉ seen)
  then ({[Task.label task]} ∪ seen, duration + Task.duration task)
  else (seen, duration).

Definition scheduled_duration (self : t) : outcome Z :=
  hours (snd (foldl scheduled_step (∅, 0) (tasks self))).

(** *** candidate_regressions *)

Definition failclass : list string := ["not classified"; "fixed by commit"]%string.

Definition candidate_step (label : string) (summary : LabelSummary.t)
    (candidate_regressions : gset string) : gset string :=
  if decide (LabelSummary.status summary = Some PASS) then candidate_regressions
  else if forallb (fun c => bool_decide (c ∉ failclass))
            (elements (LabelSummary.classifications summary))
  then candidate_regressions
  else {[label]} ∪ candidate_regressions.

Definition candidate_regressions (self : t) : outcome (gset string) :=
  summaries ← label_summaries self;
  mret (map_fold candidate_step ∅ summaries).

(** *** regressions *)

(** The inner [while True] loop for one label; it ends by [break] with the
    pair [(prior_regression, count)]. *)
Fixpoint regressions_while (fuel : nat) (label : string) (other : t) (count : Z)
  : outcome (bool * Z) :=
  match fuel with
  | O => OutOfFuel
  | S fuel' =>
      if decide (label ∈ task_labels other) then
        summaries ← label_summaries other;
        match summaries !! label with
        | None => Raised KeyError
        | Some summary =>
            Done (bool_decide (LabelSummary.status summary ≠ Some PASS), count)
        end
      else
        other' ← parent fuel' other;
        regressions_while fuel' label other' (count + 1)
  end.

(** The body of [for label in self.candidate_regressions]. *)
Definition regressions_body (fuel : nat) (self : t)
    (regressions : gmap string Z) (label : string) : outcome (gmap string Z) :=
  other ← parent fuel self;
  '(prior_regression, count) ← regressions_while fuel label other 0;
  mret (if prior_regression : bool then regressions
        else <[label := count]> regressions).

Fixpoint regressions_for (fuel : nat) (self : t) (labels : list string)
    (regressions : gmap string Z) : outcome (gmap string Z) :=
  match labels with
  | [] => Done regressions
  | label :: labels' =>
      regressions' ← regressions_body fuel self regressions label;
      regressions_for fuel self labels' regressions'
  end.

Definition regressions (fuel : nat) (self : t) : outcome (gmap string Z) :=
  candidates ← candidate_regressions self;
  regressions_for fuel self (elements candidates) ∅.

(** [set([label for label, count in self.regressions.items() if count > 0])] *)
Definition possible_regressions (fuel : nat) (self : t) : outcome (gset string) :=
  regs ← regressions fuel self;
  mret (dom (filter (fun kv : string * Z => 0 < kv.2) regs)).

(** [set([label for label, count in self.regressions.items() if count == 0])] *)
Definition likely_regressions (fuel : nat) (self : t) : outcome (gset string) :=
  regs ← regressions fuel self;
  mret (dom (filter (fun kv : string * Z => kv.2 = 0) regs)).

End WithWorld.

End Push.

(** ** The ingestion contract, as the specification words it

    A row is kept when all of [label], [duration], [result] and
    [classification] are present and [duration > 0]. *)

Definition row_is_valid (kwargs : Kwargs) : bool :=
  match kw_label kwargs, kw_duration kwargs, kw_result kwargs,
        kw_classification kwargs with
  | Some _, Some d, Some _, Some _ => bool_decide (0 < d)
  | _, _, _, _ => false
  end.

(** The row a task was built from. *)
Definition row_of_task (t : Task.t) : Kwargs :=
  {| kw_label := Some (Task.label t);
     kw_duration := Some (Task.duration t);
     kw_result := Some (Task.result t);
     kw_classification := Some (Task.classification t) |}.

(** ** Notions used to state the properties *)

(** The tasks of a list that carry a given label, in order. *)
Definition tasks_with_label (label : string) (tasks : list Task.t) : list Task.t :=
  filter (fun t => Task.label t = label) tasks.

(** A summary is that of a candidate regression: its status is not PASS
    and a failed task of it is unexplained. *)
Definition is_candidate (summary : LabelSummary.t) : Prop :=
  LabelSummary.status summary ≠ Some PASS ∧
  ∃ c, c ∈ LabelSummary.classifications summary ∧
       (c = "not classified"%string ∨ c = "fixed by commit"%string).

(** The sum of the durations of a list of tasks. *)
Definition sum_durations (tasks : list Task.t) : Z :=
  foldr (fun t acc => Task.duration t + acc) 0 tasks.

(** The tasks that are the first of their label in the list: the task at
    position [i] is kept when no task before position [i] has its label. *)
Definition first_seen_after (before tasks : list Task.t) : list Task.t :=
  omap id
    (imap (fun i t =>
             if decide (Task.label t ∈ Task.label <$> before ++ take i tasks)
             then None else Some t) tasks).

Definition first_seen_tasks (tasks : list Task.t) : list Task.t :=
  first_seen_after [] tasks.

(** The walk of [parent], as a relation: standing on [other], it finds the
    first listed parent that belongs to another push; when every listed
    parent belongs to this push, it moves to the last one listed. *)
Inductive walk_finds (w : World) (self : Push.t) : Push.t → Push.t → Prop :=
| finds_here other same rev rest :
    hg_parents (Push._hgmo w other) = same ++ rev :: rest →
    Forall (fun r => Push.pushid w (Push.new r) = Push.pushid w self) same →
    Push.pushid w (Push.new rev) ≠ Push.pushid w self →
    walk_finds w self other (Push.new rev)
| finds_later other revs last p :
    hg_parents (Push._hgmo w other) = revs ++ [last] →
    Forall (fun r => Push.pushid w (Push.new r) = Push.pushid w self)
      (revs ++ [last]) →
    walk_finds w self (Push.new last) p →
    walk_finds w self other p.

(** [nearest_run w label p n a]: [a] is the nearest ancestor of [p] that
    ran [label]; the [n] ancestors between [p] and [a] did not run it. *)
Inductive nearest_run (w : World) (label : string)
  : Push.t → nat → Push.t → Prop :=
| nearest_parent p fuel a :
    Push.parent w fuel p = Done a →
    label ∈ Push.task_labels w a →
    nearest_run w label p 0 a
| nearest_further p fuel q n a :
    Push.parent w fuel p = Done q →
    label ∉ Push.task_labels w q →
    nearest_run w label q n a →
    nearest_run w label p (S n) a.

(** ** Concrete histories used by the examples below *)

Module Examples.

Definition row (label : string) (duration : Z) (result classification : string)
  : Kwargs :=
  Build_Kwargs (Some label) (Some duration) (Some result) (Some classification).

(** A history is a list of revisions with their JSON object and their
    query rows; a revision that is not listed has push id 0, no parents and
    no rows. *)
Definition history := list (string * (Hgmo * list Kwargs)).

Fixpoint find_rev (h : history) (rev : string) : Hgmo * list Kwargs :=
  match h with
  | [] => (Build_Hgmo 0 [] None, [])
  | (r, info) :: h' => if decide (r = rev) then info else find_rev h' rev
  end.

Definition world_of (h : history) : World :=
  {| hgmo_json := fun _ rev => fst (find_rev h rev);
     push_results := fun rev => snd (find_rev h rev) |}.

Definition commit (rev : string) (pushid : Z) (parents : list string)
    (rows : list Kwargs) : string * (Hgmo * list Kwargs) :=
  (rev, (Build_Hgmo pushid parents None, rows)).

(** [L1] fails unclassified on [P]; six ancestors did not run it; the
    seventh ran it and passed. *)
Definition deep_history : history :=
  [ commit "P" 10 ["a1"] [row "L1" 100 "testfailed" "not classified"];
    commit "a1" 9 ["a2"] [row "L0" 50 "success" "not classified"];
    commit "a2" 8 ["a3"] [];
    commit "a3" 7 ["a4"] [];
    commit "a4" 6 ["a5"] [];
    commit "a5" 5 ["a6"] [];
    commit "a6" 4 ["a7"] [];
    commit "a7" 3 ["a8"] [row "L1" 100 "success" "not classified"] ]%string.

(** One task that ran for 15832967439977999 seconds, which is
    [3600 * 2^42 + 3599]. *)
Definition long_history : history :=
  [ commit "P" 10 ["a1"] [row "L1" 15832967439977999 "success" "not classified"] ]%string.

(** A push whose revision has no parents. *)
Definition root_history : history :=
  [ commit "R" 1 [] [row "L1" 100 "testfailed" "not classified"] ]%string.

(** Scenario C: [L1] fails on [P] and already failed on its parent. *)
Definition prior_history : history :=
  [ commit "P" 10 ["a1"] [row "L1" 100 "testfailed" "not classified"];
    commit "a1" 9 ["a2"] [row "L1" 100 "busted" "not classified"] ]%string.

(** [L1] passed on the parent; [L2] was last run, and passed, two pushes
    further back; the push itself spans two revisions. *)
Definition mixed_history : history :=
  [ commit "P" 10 ["P0"]
      [row "L1" 4000 "testfailed" "not classified";
       row "L2" 5000 "busted" "fixed by commit";
       row "L2" 3000 "success" "not classified";
       row "L3" 7000 "success" "not classified";
       row "L4" 100 "testfailed" "intermittent"];
    commit "P0" 10 ["a1"] [];
    commit "a1" 9 ["a2"] [row "L1" 10 "success" "not classified"];
    commit "a2" 8 ["a3"] [];
    commit "a3" 7 ["a4"] [row "L2" 10 "success" "not classified"] ]%string.

End Examples.

(** ** The decision task's artifacts

    [target_task_labels], [scheduled_task_labels] and
    [unscheduled_task_labels] read the artifacts of the decision task: the
    rows of the [decision_artifacts] query give their URLs, and the body of
    a URL is parsed JSON.  A body is [null], a list of label strings (the
    shape of [target-tasks.json]) or an object from task ids to task
    definitions (the shape of [task-graph.json]); a task definition may lack
    its ['label'] key. *)

Inductive Json :=
| JNull
| JLabels (labels : list string)
| JGraph (graph : gmap string (option string)).

Record DecisionWorld := {
  decision_artifacts : string -> list (list string);  (* rev: one url list per row *)
  get_json : string -> Json                           (* url *)
}.

Module Decision.

Inductive error := IndexError | TypeError | AttributeError | KeyError.

(** A value or a Python exception. *)
Inductive except (A : Type) : Type :=
| Ok (a : A)
| Raise (e : error).

Arguments Ok {A} a.
Arguments Raise {A} e.

(** The separator of the path segments of a URL, ['/']. *)
Definition slash : Ascii.ascii := Ascii.ascii_of_nat 47.

(** [s.rsplit(sep, 1)]: the string alone when it has no [sep], else what is
    before the last [sep] and what is after it. *)
Fixpoint rsplit1 (sep : Ascii.ascii) (s : string) : list string :=
  match s with
  | EmptyString => [EmptyString]
  | String c s' =>
      match rsplit1 sep s' with
      | [head; tail] => [String c head; tail]
      | _ => if decide (c = sep) then [EmptyString; s'] else [String c s']
      end
  end.

Section WithWorlds.

Variable w : World.
Variable d : DecisionWorld.

(** [run_query('decision_artifacts', ...)['data'][0]['artifacts']] *)
Definition _decision_artifact_urls (self : Push.t) : except (list string) :=
  match decision_artifacts d (Push.rev self) with
  | [] => Raise IndexError
  | artifacts :: _ => Ok artifacts
  end.

(** The loop of [_get_decision_artifact]; running off the list returns
    [None]. *)
Fixpoint get_artifact_for (urls : list string) (name : string) : except Json :=
  match urls with
  | [] => Ok JNull
  | url :: urls' =>
      match rsplit1 slash url !! 1%nat with
      | None => Raise IndexError
      | Some file =>
          if decide (file = name) then Ok (get_json d url)
          else get_artifact_for urls' name
      end
  end.

Definition _get_decision_artifact (self : Push.t) (name : string) : except Json :=
  match _decision_artifact_urls self with
  | Raise e => Raise e
  | Ok urls => get_artifact_for urls name
  end.

(** [set(x)] of a parsed body: the elements of a list, the keys of an
    object; [None] is not iterable. *)
Definition set_of_json (j : Json) : except (gset string) :=
  match j with
  | JNull => Raise TypeError
  | JLabels labels => Ok (list_to_set labels)
  | JGraph graph => Ok (dom graph)
  end.

Definition target_task_labels (self : Push.t) : except (gset string) :=
  match _get_decision_artifact self "target-tasks.json" with
  | Raise e => Raise e
  | Ok j => set_of_json j
  end.

(** [[t['label'] for t in tasks]] *)
Fixpoint labels_of (tasks : list (option string)) : except (list string) :=
  match tasks with
  | [] => Ok []
  | None :: _ => Raise KeyError
  | Some label :: tasks' =>
      match labels_of tasks' with
      | Raise e => Raise e
      | Ok labels => Ok (label :: labels)
      end
  end.

Definition scheduled_task_labels (self : Push.t) : except (gset string) :=
  match _get_decision_artifact self "task-graph.json" with
  | Raise e => Raise e
  | Ok (JGraph graph) =>
      match labels_of (snd <$> map_to_list graph) with
      | Raise e => Raise e
      | Ok labels => Ok (list_to_set labels)
      end
  | Ok _ => Raise AttributeError
  end.

(** [self.task_labels - self.scheduled_task_labels] *)
Definition unscheduled_task_labels (self : Push.t) : except (gset string) :=
  match scheduled_task_labels self with
  | Raise e => Raise e
  | Ok scheduled => Ok (Push.task_labels w self ∖ scheduled)
  end.

End WithWorlds.

End Decision.

(** ** Further histories *)

Module MoreExamples.

(** A push without parents whose only task passed. *)
Definition green_root_history : Examples.history :=
  [ Examples.commit "R" 1 [] [Examples.row "L1" 100 "success" "not classified"] ]%string.

(** A push whose rows are all dropped by ingestion. *)
Definition junk_history : Examples.history :=
  [ Examples.commit "P" 10 ["a1"]
      [Build_Kwargs (Some "L1") None (Some "busted") (Some "not classified");
       Examples.row "L2" 0 "busted" "not classified";
       Examples.row "L3" (-5) "testfailed" "not classified"] ]%string.

(** A history without end: the revision [rev] belongs to the push numbered
    by its length and has the single parent ["x" ++ rev]; only the revision
    [""] ran anything, the label [L1], which failed unclassified. *)
Definition endless_world : World :=
  {| hgmo_json := fun _ rev =>
       Build_Hgmo (Z.of_nat (String.length rev)) [String (Ascii.ascii_of_nat 120) rev] None;
     push_results := fun rev =>
       if decide (rev = EmptyString)
       then [Examples.row "L1" 100 "testfailed" "not classified"]
       else [] |}.

(** Three labels, one run each. *)
Definition distinct_history : Examples.history :=
  [ Examples.commit "P" 10 ["a1"]
      [Examples.row "L1" 4000 "testfailed" "not classified";
       Examples.row "L2" 5000 "success" "not classified";
       Examples.row "L3" 7000 "success" "not classified"] ]%string.

(** Two runs of [L1] on ["P"], of one and of two hours, and the same rows
    in the other order. *)
Definition retrigger_history : Examples.history :=
  [ Examples.commit "P" 10 ["a1"]
      [Examples.row "L1" 3600 "success" "not classified";
       Examples.row "L1" 7200 "success" "not classified"] ]%string.

Definition retrigger_history_swapped : Examples.history :=
  [ Examples.commit "P" 10 ["a1"]
      [Examples.row "L1" 7200 "success" "not classified";
       Examples.row "L1" 3600 "success" "not classified"] ]%string.

(** The decision task of ["P"] published three artifacts. *)
Definition decision_world : DecisionWorld :=
  {| decision_artifacts := fun rev =>
       if decide (rev = "P"%string)
       then [["https://queue/task/D/artifacts/public/parameters.yml";
              "https://queue/task/D/artifacts/public/target-tasks.json";
              "https://queue/task/D/artifacts/public/task-graph.json"]%string]
       else [];
     get_json := fun url =>
       if decide (url = "https://queue/task/D/artifacts/public/target-tasks.json"%string)
       then JLabels ["L1"; "L2"; "L3"; "L5"]%string
       else if decide (url = "https://queue/task/D/artifacts/public/task-graph.json"%string)
       then JGraph (<["t1" := Some "L1"]> (<["t3" := Some "L3"]> ∅))%string
       else JNull |}.

End MoreExamples.

(** ** The model on the example histories *)

(** On ["P"] of [mixed_history]: [L3] passed and every failure of [L4] is
    explained, so the candidates are [L1] and [L2] (whose two runs
    disagree). *)
Example mixed_candidates :
  Push.candidate_regressions (Examples.world_of Examples.mixed_history)
    (Push.new "P") = Done {["L1"; "L2"]}%string.
Proof. by vm_compute. Qed.

(** [int(x / 3600)] on a few ints: below and at one hour; a negative int;
    the first int whose binary64 quotient rounds up to the next integer; a
    quotient halfway between two binary64 numbers, which goes to the even
    one; and the first int whose quotient is too large for binary64. *)
Example hours_values :
  hours 3599 = Done 0 ∧ hours 3600 = Done 1 ∧ hours (-3601) = Done (-1) ∧
  hours 15832967439977998 = Done 4398046511104 ∧
  hours 15832967439977999 = Done 4398046511105 ∧
  hours (3600 * (2 ^ 53 + 1)) = Done (2 ^ 53) ∧
  hours (3600 * (2 ^ 53 + 3)) = Done (2 ^ 53 + 4) ∧
  hours (3600 * (2 ^ 1024 - 2 ^ 970) - 1) = Done (2 ^ 1024 - 2 ^ 971) ∧
  hours (3600 * (2 ^ 1024 - 2 ^ 970)) = Raised OverflowError.
Proof. vm_compute. repeat split; reflexivity. Qed.

(** 19100 seconds in all, 16100 without the second run of [L2]. *)
Example mixed_durations :
  Push.duration (Examples.world_of Examples.mixed_history) (Push.new "P") = Done 5 ∧
  Push.scheduled_duration (Examples.world_of Examples.mixed_history) (Push.new "P")
    = Done 4 ∧
  Task.duration <$> first_seen_tasks
    (Push.tasks (Examples.world_of Examples.mixed_history) (Push.new "P"))
  = [4000; 5000; 7000; 100].
Proof. by vm_compute. Qed.

(** [L1] passed on the parent (distance 0); [L2] was skipped by two
    ancestors and passed on the third (distance 2). *)
Example mixed_regressions :
  Push.regressions (Examples.world_of Examples.mixed_history) 6 (Push.new "P")
  = Done (<["L1" := 0]> {["L2" := 2]})%string.
Proof. by vm_compute. Qed.

(** ** Lemmas on [LabelSummary.status] *)

Section StatusFacts.

Import LabelSummary.

Lemma status_loop_from (o : Status) (l : list Task.t) :
  foldl status_step (Some o) l =
  Some (if forallb (fun t => bool_decide (task_status t = o)) l
        then o else INTERMITTENT).
Proof.
  revert o. induction l as [|x l IH]; intros o; simpl; [done|].
  destruct (decide (task_status x ≠ o)) as [Hne|Heq].
  - rewrite IH. rewrite (bool_decide_eq_false_2 _ Hne). simpl.
    by destruct (forallb _ l).
  - apply dec_stable in Heq. rewrite IH, (bool_decide_eq_true_2 _ Heq). done.
Qed.

Lemma status_cons (label : string) (x : Task.t) (l : list Task.t) :
  status (mk label (x :: l)) =
  Some (if forallb (fun t => bool_decide (task_status t = task_status x)) l
        then task_status x else INTERMITTENT).
Proof. unfold status. simpl. apply status_loop_from. Qed.

Lemma task_status_PASS (x : Task.t) : task_status x = PASS ↔ Task.failed x = false.
Proof. unfold task_status. destruct (Task.failed x); split; congruence. Qed.

Lemma task_status_FAIL (x : Task.t) : task_status x = FAIL ↔ Task.failed x = true.
Proof. unfold task_status. destruct (Task.failed x); split; congruence. Qed.

Lemma task_status_not_INTERMITTENT (x : Task.t) : task_status x ≠ INTERMITTENT.
Proof. unfold task_status. by destruct (Task.failed x). Qed.

Lemma forallb_task_status (o : Status) (l : list Task.t) :
  forallb (fun t => bool_decide (task_status t = o)) l = true ↔
  Forall (fun t => task_status t = o) l.
Proof.
  rewrite forallb_forall, Forall_forall. split; intros H x Hx.
  - apply list_elem_of_In in Hx. apply H in Hx. by apply bool_decide_eq_true in Hx.
  - apply bool_decide_eq_true. apply H. by apply list_elem_of_In.
Qed.

(** The status of a non-empty summary is the common verdict of its tasks
    when they all agree and INTERMITTENT otherwise. *)
Lemma status_agree (s : t) (o : Status) :
  tasks s ≠ [] → o ≠ INTERMITTENT →
  status s = Some o ↔ Forall (fun t => task_status t = o) (tasks s).
Proof.
  destruct s as [lbl [|x l]]; simpl; [done|]. intros _ Ho.
  rewrite status_cons.
  destruct (forallb _ l) eqn:Hall.
  - apply forallb_task_status in Hall. split.
    + intros [= <-]. by constructor.
    + intros Hf. inversion Hf; subst. done.
  - split; [intros [= <-]; done|].
    intros Hf. inversion Hf as [|? ? Hx Hl]; subst.
    apply forallb_task_status in Hl. congruence.
Qed.

Lemma status_is_Some (s : t) : tasks s ≠ [] → is_Some (status s).
Proof.
  destruct s as [lbl [|x l]]; simpl; [done|]. intros _.
  rewrite status_cons. eauto.
Qed.

Lemma status_empty (lbl : string) : status (mk lbl []) = None.
Proof. reflexivity. Qed.

End StatusFacts.

(** C3.  For a summary over a non-empty task list: the status is PASS
    exactly when no task failed, FAIL exactly when every task failed, and
    INTERMITTENT exactly when some task failed and some did not.  A single
    task that disagrees with all the others (which is then the only pass
    among failures, or the only failure among passes) gives INTERMITTENT. *)
Theorem status_three_way (s : LabelSummary.t) :
  LabelSummary.tasks s ≠ [] →
  (LabelSummary.status s = Some PASS ↔
     ∀ t, t ∈ LabelSummary.tasks s → Task.failed t = false) ∧
  (LabelSummary.status s = Some FAIL ↔
     ∀ t, t ∈ LabelSummary.tasks s → Task.failed t = true) ∧
  (LabelSummary.status s = Some INTERMITTENT ↔
     (∃ t, t ∈ LabelSummary.tasks s ∧ Task.failed t = true) ∧
     (∃ t, t ∈ LabelSummary.tasks s ∧ Task.failed t = false)) ∧
  (∀ l1 x l2, LabelSummary.tasks s = l1 ++ x :: l2 → l1 ++ l2 ≠ [] →
     (∀ t, t ∈ l1 ++ l2 → Task.failed t = negb (Task.failed x)) →
     LabelSummary.status s = Some INTERMITTENT).
Proof.
  intros Hne.
  assert (HP : LabelSummary.status s = Some PASS ↔
               ∀ t, t ∈ LabelSummary.tasks s → Task.failed t = false).
  { rewrite (status_agree s PASS Hne) by done. rewrite Forall_forall.
    split; intros H t Ht; apply task_status_PASS; auto. }
  assert (HF : LabelSummary.status s = Some FAIL ↔
               ∀ t, t ∈ LabelSummary.tasks s → Task.failed t = true).
  { rewrite (status_agree s FAIL Hne) by done. rewrite Forall_forall.
    split; intros H t Ht; apply task_status_FAIL; auto. }
  assert (HI : LabelSummary.status s = Some INTERMITTENT ↔
     (∃ t, t ∈ LabelSummary.tasks s ∧ Task.failed t = true) ∧
     (∃ t, t ∈ LabelSummary.tasks s ∧ Task.failed t = false)).
  { split.
    - intros Hs. split.
      + destruct (decide (Exists (fun t => Task.failed t = true) (LabelSummary.tasks s)))
          as [He|Hn].
        * apply Exists_exists in He. done.
        * apply not_Exists_Forall in Hn; [|solve_decision].
          rewrite Forall_forall in Hn.
          assert (LabelSummary.status s = Some PASS); [|congruence].
          apply HP. intros t Ht. specialize (Hn t Ht). simpl in Hn.
          by destruct (Task.failed t).
      + destruct (decide (Exists (fun t => Task.failed t = false) (LabelSummary.tasks s)))
          as [He|Hn].
        * apply Exists_exists in He. done.
        * apply not_Exists_Forall in Hn; [|solve_decision].
          rewrite Forall_forall in Hn.
          assert (LabelSummary.status s = Some FAIL); [|congruence].
          apply HF. intros t Ht. specialize (Hn t Ht). simpl in Hn.
          by destruct (Task.failed t).
    - intros [(t1 & Ht1 & Hf1) (t2 & Ht2 & Hf2)].
      destruct (status_is_Some s Hne) as [[| |] Hst]; [| |done].
      + pose proof (proj1 HP Hst t1 Ht1). congruence.
      + pose proof (proj1 HF Hst t2 Ht2). congruence. }
  split; [done|]. split; [done|]. split; [done|].
  intros l1 x l2 Hl Hrest Hdis. apply HI.
  assert (∃ y, y ∈ l1 ++ l2) as [y Hy].
  { destruct (l1 ++ l2) as [|y ?]; [done|]. exists y. by left. }
  assert (Hx : x ∈ LabelSummary.tasks s).
  { rewrite Hl. apply elem_of_app. right. by left. }
  assert (Hy' : y ∈ LabelSummary.tasks s).
  { rewrite Hl. apply elem_of_app. apply elem_of_app in Hy as [Hy|Hy]; [by left|].
    right. by right. }
  specialize (Hdis y Hy).
  destruct (Task.failed x) eqn:Hfx; simpl in Hdis.
  - split; [by exists x | by exists y].
  - split; [by exists y | by exists x].
Qed.

(** A push with three failures and one pass for the same label. *)
Lemma status_three_way_witness :
  LabelSummary.status
    (LabelSummary.mk "L"
       [Task.mk "L" 5 "busted" "x"; Task.mk "L" 5 "busted" "x";
        Task.mk "L" 5 "success" "x"; Task.mk "L" 5 "testfailed" "x"])
  = Some INTERMITTENT.
Proof.
  set (s := LabelSummary.mk _ _).
  assert (Hne : LabelSummary.tasks s ≠ []) by done.
  destruct (status_three_way s Hne) as (_ & _ & _ & Hsingle).
  apply (Hsingle [Task.mk "L" 5 "busted" "x"; Task.mk "L" 5 "busted" "x"]
                 (Task.mk "L" 5 "success" "x")
                 [Task.mk "L" 5 "testfailed" "x"]); [reflexivity|done|].
  intros t Ht. simpl in Ht.
  repeat (apply elem_of_cons in Ht as [->|Ht]; [reflexivity|]).
  by apply elem_of_nil in Ht.
Defined.

(** ** Construction of a label summary *)

Lemma post_init_Done (label : string) (tasks : list Task.t) :
  LabelSummary.post_init (LabelSummary.mk label tasks) = Done tt ↔
  ∀ t, t ∈ tasks → Task.label t = label.
Proof.
  unfold LabelSummary.post_init. simpl.
  destruct (forallb _ tasks) eqn:Hall.
  - split; [intros _|done]. rewrite forallb_forall in Hall.
    intros t Ht. apply list_elem_of_In in Ht. apply Hall in Ht.
    by apply bool_decide_eq_true in Ht.
  - split; [done|]. intros Hlab. exfalso.
    assert (forallb (fun t => bool_decide (Task.label t = label)) tasks = true);
      [|congruence].
    apply forallb_forall. intros t Ht. apply bool_decide_eq_true.
    apply Hlab. by apply list_elem_of_In.
Qed.

Lemma new_grouped (label : string) (tasks : list Task.t) :
  (∀ t, t ∈ tasks → Task.label t = label) →
  LabelSummary.new label tasks = Done (LabelSummary.mk label tasks).
Proof.
  intros H. apply post_init_Done in H. unfold LabelSummary.new.
  cbv zeta. by rewrite H.
Qed.

(** ** Ingestion of the query rows *)

Lemma tasks_step_rows (acc : list Task.t) (kwargs : Kwargs) :
  row_of_task <$> Push.tasks_step acc kwargs =
  (row_of_task <$> acc) ++ (if row_is_valid kwargs then [kwargs] else []).
Proof.
  unfold Push.tasks_step, row_is_valid.
  destruct kwargs as [[l|] [d|] [r|] [c|]]; simpl; try by rewrite app_nil_r.
  destruct (Z.leb_spec d 0).
  - rewrite bool_decide_eq_false_2 by lia. by rewrite app_nil_r.
  - rewrite bool_decide_eq_true_2 by lia. by rewrite fmap_app.
Qed.

Lemma tasks_loop_rows (rows : list Kwargs) (acc : list Task.t) :
  row_of_task <$> foldl Push.tasks_step acc rows =
  (row_of_task <$> acc) ++ filter (fun kw => row_is_valid kw) rows.
Proof.
  revert acc. induction rows as [|kw rows IH]; intros acc; simpl.
  - by rewrite app_nil_r.
  - rewrite IH, tasks_step_rows, <- app_assoc. f_equal.
    rewrite filter_cons. by destruct (row_is_valid kw).
Qed.

Lemma tasks_step_positive (acc : list Task.t) (kwargs : Kwargs) :
  Forall (fun t => 0 < Task.duration t) acc →
  Forall (fun t => 0 < Task.duration t) (Push.tasks_step acc kwargs).
Proof.
  intros Hacc. unfold Push.tasks_step.
  destruct kwargs as [[l|] [d|] [r|] [c|]]; simpl; try done.
  destruct (Z.leb_spec d 0); [done|].
  apply Forall_app. split; [done|]. repeat constructor. simpl. lia.
Qed.

Lemma tasks_loop_positive (rows : list Kwargs) (acc : list Task.t) :
  Forall (fun t => 0 < Task.duration t) acc →
  Forall (fun t => 0 < Task.duration t) (foldl Push.tasks_step acc rows).
Proof.
  revert acc. induction rows as [|kw rows IH]; intros acc Hacc; simpl; [done|].
  by apply IH, tasks_step_positive.
Qed.

Lemma tasks_positive (w : World) (self : Push.t) :
  Forall (fun t => 0 < Task.duration t) (Push.tasks w self).
Proof. by apply tasks_loop_positive. Qed.

Lemma row_of_task_valid (t : Task.t) :
  row_is_valid (row_of_task t) = bool_decide (0 < Task.duration t).
Proof. reflexivity. Qed.

(** C7.  The tasks of a push are, in order, exactly the rows of the query
    that have all four fields and a positive duration: a row has a task in
    the list iff it is such a row, and no task of the list has a duration
    [<= 0]. *)
Theorem tasks_are_the_valid_rows (w : World) (self : Push.t) :
  row_of_task <$> Push.tasks w self =
    filter (fun kw => row_is_valid kw) (push_results w (Push.rev self)) ∧
  (∀ kw, kw ∈ push_results w (Push.rev self) →
     (∃ t, t ∈ Push.tasks w self ∧ row_of_task t = kw) ↔
     (∃ l d r c, kw = Build_Kwargs (Some l) (Some d) (Some r) (Some c) ∧ 0 < d)) ∧
  (∀ t, t ∈ Push.tasks w self → 0 < Task.duration t).
Proof.
  assert (Heq : row_of_task <$> Push.tasks w self =
    filter (fun kw => row_is_valid kw) (push_results w (Push.rev self))).
  { unfold Push.tasks. by rewrite tasks_loop_rows. }
  split; [done|]. split.
  - intros kw Hkw. split.
    + intros (t & Ht & <-).
      assert (Hin : row_of_task t ∈ row_of_task <$> Push.tasks w self).
      { apply list_elem_of_fmap. eauto. }
      rewrite Heq in Hin. apply list_elem_of_filter in Hin as [Hv _].
      exists (Task.label t), (Task.duration t), (Task.result t),
        (Task.classification t).
      split; [done|]. rewrite row_of_task_valid in Hv.
      by apply bool_decide_unpack in Hv.
    + intros (l & d & r & c & -> & Hd).
      assert (Hin : Build_Kwargs (Some l) (Some d) (Some r) (Some c)
                    ∈ row_of_task <$> Push.tasks w self).
      { rewrite Heq. apply list_elem_of_filter. split; [|done].
        unfold row_is_valid. simpl. by apply bool_decide_pack. }
      apply list_elem_of_fmap in Hin as (t & Ht & Hin). eauto.
  - intros t Ht. pose proof (tasks_positive w self) as Hpos.
    rewrite Forall_forall in Hpos. auto.
Qed.

(** ** Grouping the tasks of a push by label *)

Lemma group_loop_lookup (tasks : list Task.t) (m : gmap string (list Task.t))
    (label : string) :
  foldl Push.group_step m tasks !! label =
  match tasks_with_label label tasks with
  | [] => m !! label
  | g => Some (default [] (m !! label) ++ g)
  end.
Proof.
  revert m. induction tasks as [|x tasks IH]; intros m; simpl; [done|].
  rewrite IH. unfold tasks_with_label, Push.group_step. rewrite filter_cons.
  destruct (decide (Task.label x = label)) as [->|Hne].
  - rewrite lookup_insert_eq. simpl.
    destruct (filter _ tasks) as [|y g]; [done|]. by rewrite <- app_assoc.
  - by rewrite lookup_insert_ne.
Qed.

Lemma groups_lookup (tasks : list Task.t) (label : string) :
  foldl Push.group_step ∅ tasks !! label =
  match tasks_with_label label tasks with
  | [] => None
  | g => Some g
  end.
Proof. rewrite group_loop_lookup, lookup_empty. done. Qed.

Lemma groups_are_grouped (tasks : list Task.t) :
  map_Forall (fun label g => ∀ t : Task.t, t ∈ g → Task.label t = label)
    (foldl Push.group_step ∅ tasks).
Proof.
  intros label g Hg. rewrite groups_lookup in Hg.
  assert (g = tasks_with_label label tasks) as ->.
  { destruct (tasks_with_label label tasks); congruence. }
  intros t Ht. by apply list_elem_of_filter in Ht as [? _].
Qed.

(** The dict comprehension over correctly grouped lists builds one summary
    per key and raises nothing. *)
Lemma summaries_of_groups (m : gmap string (list Task.t)) :
  map_Forall (fun label g => ∀ t : Task.t, t ∈ g → Task.label t = label) m →
  ∃ summaries,
    map_fold Push.summary_step (Done ∅) m = Done summaries ∧
    ∀ label, summaries !! label = LabelSummary.mk label <$> m !! label.
Proof.
  apply (map_fold_weak_ind
    (fun r m => map_Forall (fun label g => ∀ t : Task.t, t ∈ g → Task.label t = label) m →
       ∃ summaries, r = Done summaries ∧
         ∀ label, summaries !! label = LabelSummary.mk label <$> m !! label)).
  - intros _. exists ∅. split; [done|]. intros label. by rewrite !lookup_empty.
  - intros i x m' r Hi IH Hall.
    apply map_Forall_insert in Hall as [Hx Hall]; [|done].
    destruct (IH Hall) as (summaries & -> & Hlk).
    exists (<[i := LabelSummary.mk i x]> summaries). split.
    + unfold Push.summary_step. simpl. by rewrite (new_grouped i x Hx).
    + intros label. destruct (decide (i = label)) as [->|Hne].
      * by rewrite !lookup_insert_eq.
      * by rewrite !lookup_insert_ne.
Qed.

Lemma label_summaries_Done (w : World) (self : Push.t) :
  ∃ summaries,
    Push.label_summaries w self = Done summaries ∧
    ∀ label, summaries !! label =
      match tasks_with_label label (Push.tasks w self) with
      | [] => None
      | g => Some (LabelSummary.mk label g)
      end.
Proof.
  destruct (summaries_of_groups _ (groups_are_grouped (Push.tasks w self)))
    as (summaries & Heq & Hlk).
  exists summaries. split; [done|]. intros label.
  rewrite Hlk, groups_lookup. by destruct (tasks_with_label _ _).
Qed.

Lemma tasks_with_label_nonempty (label : string) (tasks : list Task.t) :
  tasks_with_label label tasks ≠ [] ↔ label ∈ Task.label <$> tasks.
Proof.
  unfold tasks_with_label. split.
  - intros Hne. destruct (filter _ tasks) as [|t g] eqn:Hf; [done|].
    assert (Ht : t ∈ filter (fun t => Task.label t = label) tasks)
      by (rewrite Hf; left).
    apply list_elem_of_filter in Ht as [<- Ht]. apply list_elem_of_fmap. eauto.
  - intros Hin Hf. apply list_elem_of_fmap in Hin as (t & -> & Ht).
    assert (Ht' : t ∈ filter (fun t' => Task.label t' = Task.label t) tasks)
      by (by apply list_elem_of_filter).
    rewrite Hf in Ht'. by apply elem_of_nil in Ht'.
Qed.

(** The keys of [label_summaries] are the labels of the tasks, and every
    summary holds at least one task. *)
Lemma label_summaries_lookup_Some (w : World) (self : Push.t)
    (summaries : gmap string LabelSummary.t) (label : string) (s : LabelSummary.t) :
  Push.label_summaries w self = Done summaries →
  summaries !! label = Some s →
  s = LabelSummary.mk label (tasks_with_label label (Push.tasks w self)) ∧
  LabelSummary.tasks s ≠ [] ∧ label ∈ Push.task_labels w self.
Proof.
  intros Hs Hl. destruct (label_summaries_Done w self) as (m & Hm & Hlk).
  assert (m = summaries) as -> by congruence.
  rewrite Hlk in Hl.
  destruct (tasks_with_label label (Push.tasks w self)) as [|t g] eqn:Hg; [done|].
  injection Hl as <-. split; [done|]. split; [done|].
  unfold Push.task_labels. apply elem_of_list_to_set.
  apply tasks_with_label_nonempty. by rewrite Hg.
Qed.

Lemma label_summaries_lookup_None (w : World) (self : Push.t)
    (summaries : gmap string LabelSummary.t) (label : string) :
  Push.label_summaries w self = Done summaries →
  summaries !! label = None ↔ label ∉ Push.task_labels w self.
Proof.
  intros Hs. destruct (label_summaries_Done w self) as (m & Hm & Hlk).
  assert (m = summaries) as -> by congruence.
  rewrite Hlk. unfold Push.task_labels. rewrite elem_of_list_to_set.
  rewrite <- tasks_with_label_nonempty.
  destruct (tasks_with_label label (Push.tasks w self)); split; try done.
  - intros _ H. by apply H.
  - intros H. by destruct H.
Qed.

(** C9.  The constructor raises [AssertionError] exactly when some task
    carries another label than the summary's, and returns the summary exactly
    when every task carries the summary's label; the summaries that a push
    builds from its own grouping never raise. *)
Theorem label_summary_assertion (label : string) (tasks : list Task.t) :
  (LabelSummary.new label tasks = Raised AssertionError ↔
     ∃ t, t ∈ tasks ∧ Task.label t ≠ label) ∧
  (LabelSummary.new label tasks = Done (LabelSummary.mk label tasks) ↔
     ∀ t, t ∈ tasks → Task.label t = label) ∧
  (∀ (w : World) (self : Push.t) e, Push.label_summaries w self ≠ Raised e).
Proof.
  pose proof (post_init_Done label tasks) as Hpost.
  assert (Hcases : LabelSummary.new label tasks = Raised AssertionError ∨
                   LabelSummary.new label tasks = Done (LabelSummary.mk label tasks)).
  { unfold LabelSummary.new, LabelSummary.post_init. cbv zeta.
    destruct (forallb _ _); [by right | by left]. }
  assert (Hdone : LabelSummary.new label tasks = Done (LabelSummary.mk label tasks) ↔
                  ∀ t, t ∈ tasks → Task.label t = label).
  { rewrite <- Hpost. unfold LabelSummary.new, LabelSummary.post_init. cbv zeta.
    destruct (forallb _ _); split; intros H; try done; inversion H. }
  split; [|split; [done|]].
  - split.
    + intros Hr.
      destruct (decide (Exists (fun t => Task.label t ≠ label) tasks)) as [He|Hn].
      * apply Exists_exists in He. done.
      * apply not_Exists_Forall in Hn; [|solve_decision].
        rewrite Forall_forall in Hn.
        assert (LabelSummary.new label tasks = Done (LabelSummary.mk label tasks));
          [|congruence].
        apply Hdone. intros t Ht. specialize (Hn t Ht). simpl in Hn.
        by apply dec_stable.
    + intros (t & Ht & Hne). destruct Hcases as [|Hd]; [done|].
      exfalso. apply Hne. by apply (proj1 Hdone Hd).
  - intros w self e He. destruct (label_summaries_Done w self) as (m & Hm & _).
    congruence.
Qed.

(** ** Candidate regressions *)

(** The second guard of the loop: [all(c not in failclass for c in ...)]
    fails exactly when some classification is unexplained. *)
Lemma unexplained_classification (cls : gset string) :
  forallb (fun c => bool_decide (c ∉ Push.failclass)) (elements cls) = false ↔
  ∃ c, c ∈ cls ∧ c ∈ Push.failclass.
Proof.
  destruct (forallb _ (elements cls)) eqn:Hall.
  - split; [done|]. intros (c & Hc & Hin). rewrite forallb_forall in Hall.
    apply elem_of_elements, list_elem_of_In, Hall in Hc.
    by apply bool_decide_eq_true in Hc.
  - split; [intros _|done].
    destruct (decide (Exists (fun c => c ∈ Push.failclass) (elements cls)))
      as [He|Hn].
    + apply Exists_exists in He as (c & Hc & Hin). exists c.
      by rewrite <- elem_of_elements.
    + apply not_Exists_Forall in Hn; [|solve_decision].
      rewrite Forall_forall in Hn.
      assert (forallb (fun c => bool_decide (c ∉ Push.failclass)) (elements cls) = true);
        [|congruence].
      apply forallb_forall. intros c Hc. apply bool_decide_eq_true.
      apply Hn. by apply list_elem_of_In.
Qed.

Lemma failclass_elem (c : string) :
  c ∈ Push.failclass ↔ c = "not classified"%string ∨ c = "fixed by commit"%string.
Proof.
  unfold Push.failclass. rewrite !elem_of_cons, elem_of_nil. tauto.
Qed.

Lemma candidate_step_elem (label l : string) (summary : LabelSummary.t)
    (acc : gset string) :
  l ∈ Push.candidate_step label summary acc ↔
  l ∈ acc ∨ (l = label ∧ is_candidate summary).
Proof.
  unfold Push.candidate_step, is_candidate.
  destruct (decide (LabelSummary.status summary = Some PASS)) as [Hp|Hp].
  - split; [by left|]. intros [?|(_ & Hn & _)]; done.
  - destruct (forallb _ _) eqn:Hall.
    + split; [by left|]. intros [?|(_ & _ & c & Hc & Hin)]; [done|].
      apply failclass_elem in Hin.
      assert (forallb (fun c => bool_decide (c ∉ Push.failclass))
                (elements (LabelSummary.classifications summary)) = false);
        [|congruence].
      apply unexplained_classification. eauto.
    + apply unexplained_classification in Hall as (c & Hc & Hin).
      apply failclass_elem in Hin.
      rewrite elem_of_union, elem_of_singleton. split.
      * intros [->|?]; [right|by left]. eauto.
      * intros [?|[-> _]]; [by right|by left].
Qed.

Lemma candidate_loop_elem (summaries : gmap string LabelSummary.t) (l : string) :
  l ∈ map_fold Push.candidate_step ∅ summaries ↔
  ∃ summary, summaries !! l = Some summary ∧ is_candidate summary.
Proof.
  revert l. apply (map_fold_weak_ind
    (fun (r : gset string) (m : gmap string LabelSummary.t) =>
       ∀ l, l ∈ r ↔ ∃ summary, m !! l = Some summary ∧ is_candidate summary)).
  - intros l. split; [by intros ?%not_elem_of_empty|].
    intros (s & Hs & _). by rewrite lookup_empty in Hs.
  - intros i x m r Hi IH l. rewrite candidate_step_elem, IH. split.
    + intros [(s & Hs & Hc)|[-> Hc]].
      * exists s. split; [|done]. rewrite lookup_insert_ne; [done|].
        intros ->. congruence.
      * exists x. by rewrite lookup_insert_eq.
    + intros (s & Hs & Hc). destruct (decide (i = l)) as [->|Hne].
      * rewrite lookup_insert_eq in Hs. injection Hs as ->. by right.
      * rewrite lookup_insert_ne in Hs by done. left. eauto.
Qed.

Lemma candidate_regressions_Done (w : World) (self : Push.t) :
  ∃ summaries,
    Push.label_summaries w self = Done summaries ∧
    Push.candidate_regressions w self =
      Done (map_fold Push.candidate_step ∅ summaries).
Proof.
  destruct (label_summaries_Done w self) as (summaries & Hs & _).
  exists summaries. split; [done|]. unfold Push.candidate_regressions.
  by rewrite Hs.
Qed.

(** C1.  The candidate regressions of a push are computed without error,
    and a label is among them iff it has a label summary whose status is not
    PASS and one of the classifications of its failed tasks is
    "not classified" or "fixed by commit"; so every candidate is a label
    whose status is not PASS. *)
Theorem candidate_regressions_iff (w : World) (self : Push.t) :
  ∃ summaries candidates,
    Push.label_summaries w self = Done summaries ∧
    Push.candidate_regressions w self = Done candidates ∧
    (∀ label, label ∈ candidates ↔
       ∃ summary, summaries !! label = Some summary ∧
         LabelSummary.status summary ≠ Some PASS ∧
         ∃ c, c ∈ LabelSummary.classifications summary ∧
              (c = "not classified"%string ∨ c = "fixed by commit"%string)) ∧
    candidates ⊆
      dom (filter (fun kv : string * LabelSummary.t =>
                     LabelSummary.status kv.2 ≠ Some PASS) summaries).
Proof.
  destruct (candidate_regressions_Done w self) as (summaries & Hs & Hc).
  exists summaries, (map_fold Push.candidate_step ∅ summaries).
  split; [done|]. split; [done|]. split.
  - intros label. apply candidate_loop_elem.
  - intros label Hl. apply candidate_loop_elem in Hl as (s & Hs' & Hst & _).
    apply elem_of_dom. exists s. by apply map_lookup_filter_Some.
Qed.

(** ** Durations *)

Lemma sum_loop (tasks : list Task.t) (acc : Z) :
  foldl (fun acc t => acc + Task.duration t) acc tasks = acc + sum_durations tasks.
Proof.
  revert acc. induction tasks as [|x l IH]; intros acc; simpl; [lia|].
  rewrite IH. lia.
Qed.

Lemma first_seen_after_cons (before : list Task.t) (x : Task.t) (l : list Task.t) :
  first_seen_after before (x :: l) =
  (if decide (Task.label x ∈ Task.label <$> before) then [] else [x])
  ++ first_seen_after (before ++ [x]) l.
Proof.
  unfold first_seen_after. rewrite imap_cons. simpl. rewrite app_nil_r.
  assert (Hext : imap ((fun i t =>
             if decide (Task.label t ∈ Task.label <$> before ++ take i (x :: l))
             then None else Some t) ∘ S) l =
          imap (fun i t =>
             if decide (Task.label t ∈ Task.label <$> (before ++ [x]) ++ take i l)
             then None else Some t) l).
  { apply imap_ext. intros i t _. simpl. by rewrite <- app_assoc. }
  rewrite Hext. by destruct (decide (Task.label x ∈ Task.label <$> before)).
Qed.

Lemma scheduled_loop (tasks before : list Task.t) (d : Z) :
  foldl Push.scheduled_step (list_to_set (Task.label <$> before), d) tasks =
  (list_to_set (Task.label <$> before ++ tasks),
   d + sum_durations (first_seen_after before tasks)).
Proof.
  revert before d. induction tasks as [|x l IH]; intros before d.
  - simpl. rewrite app_nil_r. unfold first_seen_after. simpl. f_equal. lia.
  - rewrite first_seen_after_cons. cbn [foldl]. unfold Push.scheduled_step at 2.
    assert (Hset : ({[Task.label x]} ∪ list_to_set (Task.label <$> before) : gset string)
                   = list_to_set (Task.label <$> before ++ [x])).
    { rewrite fmap_app, list_to_set_app_L. simpl.
      rewrite (comm_L (∪) (list_to_set (Task.label <$> before))).
      by rewrite union_empty_r_L. }
    assert (Hcons : before ++ x :: l = (before ++ [x]) ++ l)
      by (by rewrite <- app_assoc).
    destruct (decide (Task.label x ∉ list_to_set (Task.label <$> before)))
      as [Hnew|Hold].
    + rewrite Hset, IH, Hcons. f_equal.
      rewrite elem_of_list_to_set in Hnew.
      destruct (decide (Task.label x ∈ Task.label <$> before)); [done|].
      simpl. lia.
    + apply dec_stable in Hold. rewrite elem_of_list_to_set in Hold.
      destruct (decide (Task.label x ∈ Task.label <$> before)); [|done].
      assert (Hsame : (list_to_set (Task.label <$> before) : gset string)
                      = list_to_set (Task.label <$> before ++ [x])).
      { rewrite <- Hset. apply set_eq. intros y.
        rewrite elem_of_union, elem_of_singleton, !elem_of_list_to_set.
        split; [by right|]. by intros [->|?]. }
      rewrite Hsame, IH, Hcons. done.
Qed.

Lemma scheduled_seconds (tasks : list Task.t) :
  snd (foldl Push.scheduled_step (∅, 0) tasks) =
  sum_durations (first_seen_tasks tasks).
Proof.
  pose proof (scheduled_loop tasks [] 0) as H. simpl in H. rewrite H. simpl.
  unfold first_seen_tasks. lia.
Qed.

Lemma sum_durations_app (l1 l2 : list Task.t) :
  sum_durations (l1 ++ l2) = sum_durations l1 + sum_durations l2.
Proof.
  induction l1 as [|x l1 IH]; simpl; [done|].
  unfold sum_durations in *. simpl. rewrite IH. lia.
Qed.

Lemma sum_durations_nonneg (tasks : list Task.t) :
  Forall (fun t => 0 < Task.duration t) tasks → 0 ≤ sum_durations tasks.
Proof.
  induction 1 as [|x l Hx _ IH]; unfold sum_durations in *; simpl; lia.
Qed.

Lemma first_seen_after_le (tasks before : list Task.t) :
  Forall (fun t => 0 < Task.duration t) tasks →
  0 ≤ sum_durations (first_seen_after before tasks) ≤ sum_durations tasks.
Proof.
  intros Hpos. revert before.
  induction Hpos as [|x l Hx _ IH]; intros before.
  - unfold first_seen_after, sum_durations. simpl. lia.
  - rewrite first_seen_after_cons, sum_durations_app.
    specialize (IH (before ++ [x])).
    change (sum_durations (x :: l)) with (Task.duration x + sum_durations l).
    destruct (decide (Task.label x ∈ Task.label <$> before));
      unfold sum_durations at 1; simpl; lia.
Qed.

(** ** Binary64 division by 3600 *)

Section RoundFacts.

Variables n d : Z.
Hypothesis Hd : 0 < d.

Lemma round_half_even_cases :
  (round_half_even n d = n / d ∧ 2 * (n mod d) ≤ d) ∨
  (round_half_even n d = n / d + 1 ∧ d ≤ 2 * (n mod d)).
Proof.
  unfold round_half_even.
  destruct (Z.ltb_spec (2 * (n mod d)) d); [left; lia|].
  destruct (Z.ltb_spec d (2 * (n mod d))); [right; lia|].
  destruct (Z.even (n / d)); [left|right]; lia.
Qed.

(** The rounded quotient is within one half of the exact one. *)
Lemma round_half_even_near :
  2 * n - d ≤ 2 * d * round_half_even n d ≤ 2 * n + d.
Proof.
  pose proof (Z.div_mod n d ltac:(lia)) as Hdm.
  pose proof (Z.mod_pos_bound n d Hd) as Hr.
  destruct round_half_even_cases as [[-> ?]|[-> ?]]; nia.
Qed.

Lemma round_half_even_lower (L : Z) : L * d ≤ n → L ≤ round_half_even n d.
Proof.
  intros HL. assert (L ≤ n / d) by (apply Z.div_le_lower_bound; lia).
  destruct round_half_even_cases as [[-> ?]|[-> ?]]; lia.
Qed.

Lemma round_half_even_upper (U : Z) : n ≤ U * d → round_half_even n d ≤ U.
Proof.
  intros HU.
  pose proof (Z.div_mod n d ltac:(lia)) as Hdm.
  pose proof (Z.mod_pos_bound n d Hd) as Hr.
  destruct round_half_even_cases as [[-> ?]|[-> ?]]; nia.
Qed.

End RoundFacts.


(** The exponent: [3600 * 2^k <= 4096 x < 3600 * 2^(k+1)]. *)
Lemma hours_exponent (x : Z) :
  0 < x →
  let k := Z.log2 (x * 4096 / 3600) in
  0 ≤ k ∧ 3600 * 2 ^ k ≤ x * 4096 < 3600 * 2 ^ (k + 1).
Proof.
  intros Hx k.
  assert (Hz : 0 < x * 4096 / 3600).
  { apply Z.div_str_pos. lia. }
  destruct (Z.log2_spec _ Hz) as [Hlo Hhi]. fold k in Hlo, Hhi.
  pose proof (Z.log2_nonneg (x * 4096 / 3600)) as Hk. fold k in Hk.
  pose proof (Z.div_mod (x * 4096) 3600 ltac:(lia)) as Hdm.
  pose proof (Z.mod_pos_bound (x * 4096) 3600 ltac:(lia)) as Hr.
  replace (Z.succ k) with (k + 1) in Hhi by lia.
  split; [done|]. lia.
Qed.

(** The significand has 53 bits. *)
Lemma hours_significand (x : Z) :
  0 < x →
  let k := Z.log2 (x * 4096 / 3600) in
  2 ^ 52 ≤ round_half_even (x * 2 ^ 64) (3600 * 2 ^ k) ≤ 2 ^ 53.
Proof.
  intros Hx k. destruct (hours_exponent x Hx) as (Hk & Hlo & Hhi). fold k in Hk, Hlo, Hhi.
  assert (Hp : 0 < 2 ^ k) by (apply Z.pow_pos_nonneg; lia).
  rewrite Z.pow_add_r in Hhi by lia. change (2 ^ 1) with 2 in Hhi.
  split.
  - apply round_half_even_lower; [lia|].
    change (2 ^ 64) with (4096 * 2 ^ 52). nia.
  - apply round_half_even_upper; [lia|].
    change (2 ^ 64) with (4096 * 2 ^ 52). change (2 ^ 53) with (2 * 2 ^ 52). nia.
Qed.

Lemma hours_of_positive_quotient64 (x : Z) :
  hours_of_positive x =
  if 2 ^ 1088 <=? quotient64 x then Raised OverflowError
  else Done (quotient64 x / 2 ^ 64).
Proof. reflexivity. Qed.





(** Below 15832967439977999 seconds the binary64 quotient has the integer
    part of the exact one. *)
Lemma hours_of_positive_exact (x : Z) :
  0 < x < 15832967439977999 → hours_of_positive x = Done (x / 3600).
Proof.
  intros [Hx Hb]. rewrite hours_of_positive_quotient64. unfold quotient64.
  set (k := Z.log2 (x * 4096 / 3600)).
  destruct (hours_exponent x Hx) as (Hk & Hlo & _). fold k in Hk, Hlo.
  pose proof (hours_significand x Hx) as Hm. fold k in Hm. cbv zeta in Hm.
  set (m := round_half_even (x * 2 ^ 64) (3600 * 2 ^ k)) in *.
  assert (Hk' : k < 55).
  { apply (Z.pow_lt_mono_r_iff 2); [lia|lia|].
    change (2 ^ 55) with 36028797018963968. lia. }
  assert (Hp0 : 0 < 2 ^ k) by (apply Z.pow_pos_nonneg; lia).
  assert (Hpk : 2 ^ k ≤ 2 ^ 54) by (apply Z.pow_le_mono_r; lia).
  set (P := 2 ^ (64 - k)).
  assert (HP : 2 ^ 64 = P * 2 ^ k).
  { unfold P. rewrite <- Z.pow_add_r by lia. f_equal. lia. }
  assert (HP10 : 2 ^ 10 ≤ P) by (apply Z.pow_le_mono_r; lia).
  assert (Hnear : 2 * (x * P) - 3600 ≤ 2 * 3600 * m ≤ 2 * (x * P) + 3600).
  { pose proof (round_half_even_near (x * 2 ^ 64) (3600 * 2 ^ k) ltac:(lia)) as Hn.
    fold m in Hn. rewrite HP in Hn. nia. }
  pose proof (Z.div_mod x 3600 ltac:(lia)) as Hdm.
  pose proof (Z.mod_pos_bound x 3600 ltac:(lia)) as Hf.
  set (K := x / 3600) in *. set (f := x mod 3600) in *.
  assert (Hgap : 3600 < 2 * P * (3600 - f)).
  { destruct (Z.eq_dec k 54) as [Hk54|Hk54].
    - rewrite Hk54 in Hlo. change (2 ^ 54) with 18014398509481984 in Hlo.
      assert (f ≤ 3598) by lia. change (2 ^ 10) with 1024 in HP10. nia.
    - assert (2 ^ 11 ≤ P) by (apply Z.pow_le_mono_r; lia).
      change (2 ^ 11) with 2048 in *. nia. }
  assert (Hlower : K * P ≤ m).
  { apply round_half_even_lower; [lia|]. rewrite HP. nia. }
  assert (Hupper : m < (K + 1) * P) by nia.
  destruct (Z.leb_spec (2 ^ 1088) (m * 2 ^ k)) as [Hov|_].
  - exfalso. assert (m * 2 ^ k ≤ 2 ^ 53 * 2 ^ 54)
      by (apply Z.mul_le_mono_nonneg; lia).
    assert (2 ^ 53 * 2 ^ 54 < 2 ^ 1088) by (by vm_compute). lia.
  - f_equal. rewrite HP, Z.div_mul_cancel_r by lia.
    symmetry. apply (Z.div_unique m P K (m - K * P)); lia.
Qed.

Lemma hours_exact (x : Z) :
  0 ≤ x < 15832967439977999 → hours x = Done (Z.quot x 3600).
Proof.
  intros [Hx Hb]. rewrite Z.quot_div_nonneg by lia. unfold hours.
  destruct (Z.eqb_spec x 0) as [->|Hx0]; [done|].
  destruct (Z.ltb_spec 0 x); [|lia]. apply hours_of_positive_exact. lia.
Qed.

(** The binary64 quotient is within a relative [2^-53] of the exact one. *)
Lemma hours_near (x h : Z) :
  0 ≤ x → hours x = Done h →
  ∃ q64, h = q64 / 2 ^ 64 ∧
         2 ^ 53 * Z.abs (3600 * q64 - x * 2 ^ 64) ≤ x * 2 ^ 64.
Proof.
  intros Hx. unfold hours.
  destruct (Z.eqb_spec x 0) as [->|Hx0].
  - intros [= <-]. exists 0. split; [done|]. by vm_compute.
  - destruct (Z.ltb_spec 0 x); [|lia]. rewrite hours_of_positive_quotient64.
    destruct (Z.leb_spec (2 ^ 1088) (quotient64 x)); [done|]. intros [= <-].
    exists (quotient64 x). split; [done|]. unfold quotient64.
    set (k := Z.log2 (x * 4096 / 3600)).
    destruct (hours_exponent x ltac:(lia)) as (Hk & Hlo & _). fold k in Hk, Hlo.
    assert (Hp0 : 0 < 2 ^ k) by (apply Z.pow_pos_nonneg; lia).
    pose proof (round_half_even_near (x * 2 ^ 64) (3600 * 2 ^ k) ltac:(lia)) as Hn.
    set (m := round_half_even (x * 2 ^ 64) (3600 * 2 ^ k)) in *.
    change (2 ^ 64) with (4096 * 2 ^ 52) in *. change (2 ^ 53) with (2 * 2 ^ 52).
    assert (Hscale : 2 ^ 52 * (3600 * 2 ^ k) ≤ x * (4096 * 2 ^ 52)) by nia.
    destruct (Z.abs_spec (3600 * (m * 2 ^ k) - x * (4096 * 2 ^ 52))) as [[_ ->]|[_ ->]];
      nia.
Qed.

(** C8, as stated, fails: a task of 15832967439977999 seconds gives the
    exact quotient 4398046511104.9997..., which binary64 rounds up to
    4398046511105, so [duration] is one more than the truncated quotient. *)
Lemma duration_is_not_the_truncated_quotient :
  Push.duration (Examples.world_of Examples.long_history) (Push.new "P")
  ≠ Done (Z.quot (sum_durations (Push.tasks (Examples.world_of Examples.long_history)
                                   (Push.new "P"))) 3600).
Proof. vm_compute. intros H. discriminate H. Qed.

(** C8, amended.  [duration] is [int(S / 3600)] for the sum [S] of the
    durations of all tasks, and [scheduled_duration] is [int(S1 / 3600)] for
    the sum [S1] over the tasks that are the first of their label in the
    order of [tasks]; the division is the binary64 one, whose result is
    within a relative [2^-53] of the exact quotient.  Whenever the sum is
    below 15832967439977999 seconds the result is the exact quotient
    truncated, the number of hours [h] with [3600 h <= sum < 3600 (h + 1)]. *)
Theorem durations_are_binary64_quotients (w : World) (self : Push.t) :
  let all := sum_durations (Push.tasks w self) in
  let scheduled := sum_durations (first_seen_tasks (Push.tasks w self)) in
  Push.duration w self = hours all ∧
  Push.scheduled_duration w self = hours scheduled ∧
  0 ≤ scheduled ≤ all ∧
  (∀ h, Push.duration w self = Done h →
     ∃ q64, h = q64 / 2 ^ 64 ∧
            2 ^ 53 * Z.abs (3600 * q64 - all * 2 ^ 64) ≤ all * 2 ^ 64) ∧
  (∀ h, Push.scheduled_duration w self = Done h →
     ∃ q64, h = q64 / 2 ^ 64 ∧
            2 ^ 53 * Z.abs (3600 * q64 - scheduled * 2 ^ 64) ≤ scheduled * 2 ^ 64) ∧
  (all < 15832967439977999 →
     Push.duration w self = Done (Z.quot all 3600) ∧
     3600 * Z.quot all 3600 ≤ all < 3600 * (Z.quot all 3600 + 1)) ∧
  (scheduled < 15832967439977999 →
     Push.scheduled_duration w self = Done (Z.quot scheduled 3600) ∧
     3600 * Z.quot scheduled 3600 ≤ scheduled < 3600 * (Z.quot scheduled 3600 + 1)).
Proof.
  intros all scheduled.
  assert (Hd : Push.duration w self = hours all).
  { unfold Push.duration. rewrite sum_loop. f_equal. }
  assert (Hs : Push.scheduled_duration w self = hours scheduled).
  { unfold Push.scheduled_duration. by rewrite scheduled_seconds. }
  pose proof (tasks_positive w self) as Hpos.
  assert (Hle : 0 ≤ scheduled ≤ all) by (by apply (first_seen_after_le _ [])).
  split; [done|]. split; [done|]. split; [done|].
  rewrite Hd, Hs. split; [|split; [|split]].
  - intros h. apply hours_near. lia.
  - intros h. apply hours_near. lia.
  - intros Hb. split; [apply hours_exact; lia|].
    rewrite Z.quot_div_nonneg by lia.
    pose proof (Z.mul_div_le all 3600). pose proof (Z.mul_succ_div_gt all 3600). lia.
  - intros Hb. split; [apply hours_exact; lia|].
    rewrite Z.quot_div_nonneg by lia.
    pose proof (Z.mul_div_le scheduled 3600).
    pose proof (Z.mul_succ_div_gt scheduled 3600). lia.
Qed.

(** On ["P"] of [mixed_history]: 19100 seconds in all, 16100 scheduled. *)
Lemma durations_are_binary64_quotients_witness :
  Push.duration (Examples.world_of Examples.mixed_history) (Push.new "P") = Done 5 ∧
  Push.scheduled_duration (Examples.world_of Examples.mixed_history) (Push.new "P")
    = Done 4.
Proof.
  destruct (durations_are_binary64_quotients
              (Examples.world_of Examples.mixed_history) (Push.new "P"))
    as (_ & _ & _ & _ & _ & Hall & Hsched).
  split.
  - exact (proj1 (Hall ltac:(by vm_compute))).
  - exact (proj1 (Hsched ltac:(by vm_compute))).
Defined.



(** ** The parent of a push *)

Section ParentFacts.

Variable w : World.

Lemma parent_for_Return (self : Push.t) (revs : list string) (other p : Push.t) :
  Push.parent_for w self revs other = Push.Return p →
  Push.pushid w p ≠ Push.pushid w self ∧ ∃ rev, rev ∈ revs ∧ p = Push.new rev.
Proof.
  revert other. induction revs as [|rev revs IH]; intros other; simpl; [done|].
  destruct (decide (Push.pushid w (Push.new rev) ≠ Push.pushid w self)) as [Hne|He].
  - intros [= <-]. split; [done|]. exists rev. split; [by left|done].
  - intros H. destruct (IH _ H) as (Hp & r & Hr & ->).
    split; [done|]. exists r. split; [by right|done].
Qed.

(** The [for] loop returns the first listed revision of another push. *)
Lemma parent_for_first (self : Push.t) (same : list string) (rev : string)
    (rest : list string) (other : Push.t) :
  Forall (fun r => Push.pushid w (Push.new r) = Push.pushid w self) same →
  Push.pushid w (Push.new rev) ≠ Push.pushid w self →
  Push.parent_for w self (same ++ rev :: rest) other = Push.Return (Push.new rev).
Proof.
  intros Hsame Hrev. revert other.
  induction Hsame as [|r same Hr _ IH]; intros other; simpl.
  - by destruct (decide _).
  - destruct (decide (Push.pushid w (Push.new r) ≠ Push.pushid w self)); [done|].
    apply IH.
Qed.

Lemma parent_while_Done (fuel : nat) (self other p : Push.t) :
  Push.parent_while w fuel self other = Done p →
  Push.pushid w p ≠ Push.pushid w self.
Proof.
  revert other. induction fuel as [|fuel IH]; intros other; simpl; [done|].
  destruct (Push.parent_for w self _ other) as [q|other'] eqn:Hfor.
  - intros [= <-]. by apply parent_for_Return in Hfor as [? _].
  - apply IH.
Qed.

Lemma parent_while_not_Raised (fuel : nat) (self other : Push.t) (e : exn) :
  Push.parent_while w fuel self other ≠ Raised e.
Proof.
  revert other. induction fuel as [|fuel IH]; intros other; simpl; [done|].
  by destruct (Push.parent_for w self _ other).
Qed.

Lemma parent_while_mono (fuel fuel' : nat) (self other p : Push.t) :
  (fuel ≤ fuel')%nat →
  Push.parent_while w fuel self other = Done p →
  Push.parent_while w fuel' self other = Done p.
Proof.
  revert fuel' other. induction fuel as [|fuel IH]; intros fuel' other Hle; [done|].
  destruct fuel' as [|fuel']; [lia|]. simpl.
  destruct (Push.parent_for w self _ other); [done|].
  apply IH. lia.
Qed.

(** A revision without parents: the [for] loop has nothing to iterate
    over, [other] stays the same and the [while True] loop starts again. *)
Lemma parent_while_no_parents (fuel : nat) (self other : Push.t) :
  hg_parents (Push._hgmo w other) = [] →
  Push.parent_while w fuel self other = OutOfFuel.
Proof.
  intros Hnil. induction fuel as [|fuel IH]; simpl; [done|].
  by rewrite Hnil.
Qed.

End ParentFacts.

Lemma parent_for_cases (w : World) (self : Push.t) (revs : list string)
    (other : Push.t) :
  (∃ same rev rest,
     revs = same ++ rev :: rest ∧
     Forall (fun r => Push.pushid w (Push.new r) = Push.pushid w self) same ∧
     Push.pushid w (Push.new rev) ≠ Push.pushid w self ∧
     Push.parent_for w self revs other = Push.Return (Push.new rev)) ∨
  (Forall (fun r => Push.pushid w (Push.new r) = Push.pushid w self) revs ∧
   Push.parent_for w self revs other =
     Push.Exhausted (default other (Push.new <$> last revs))).
Proof.
  revert other. induction revs as [|r revs IH]; intros other.
  - right. split; [constructor|done].
  - simpl. destruct (decide (Push.pushid w (Push.new r) ≠ Push.pushid w self))
      as [Hne|He].
    + left. exists [], r, revs. repeat split; done.
    + apply dec_stable in He.
      destruct (IH (Push.new r)) as [(same & rev & rest & -> & Hs & Hr & Hp)|[Hs Hp]].
      * left. exists (r :: same), rev, rest. repeat split; try done.
        by constructor.
      * right. split; [by constructor|]. rewrite Hp. f_equal.
        destruct revs as [|r' revs]; [done|]. simpl.
        destruct (last (r' :: revs)) eqn:Hlast; [done|].
        by apply last_None in Hlast.
Qed.

Lemma walk_finds_parent_while (w : World) (self other p : Push.t) :
  walk_finds w self other p →
  ∃ fuel0, ∀ fuel, (fuel0 ≤ fuel)%nat → Push.parent_while w fuel self other = Done p.
Proof.
  induction 1 as [other same rev rest Hps Hsame Hrev
                 |other revs lst p Hps Hsame _ (fuel0 & IH)].
  - exists 1%nat. intros [|fuel] Hle; [lia|]. simpl.
    by rewrite Hps, parent_for_first.
  - exists (S fuel0). intros [|fuel] Hle; [lia|]. simpl.
    destruct (parent_for_cases w self (hg_parents (Push._hgmo w other)) other)
      as [(same & rev & rest & Heq & Hs & Hr & _)|[_ Hp]].
    + exfalso. rewrite Hps in Heq. rewrite Heq in Hsame.
      apply Forall_app in Hsame as [_ Hsame]. by inversion Hsame.
    + rewrite Hp, Hps, last_snoc. simpl. apply IH. lia.
Qed.

Lemma parent_while_walk_finds (w : World) (fuel : nat) (self other p : Push.t) :
  Push.parent_while w fuel self other = Done p → walk_finds w self other p.
Proof.
  revert other. induction fuel as [|fuel IH]; intros other; simpl; [done|].
  destruct (parent_for_cases w self (hg_parents (Push._hgmo w other)) other)
    as [(same & rev & rest & Heq & Hs & Hr & Hp)|[Hs Hp]]; rewrite Hp.
  - intros [= <-]. by eapply finds_here.
  - intros Hw. destruct (hg_parents (Push._hgmo w other)) as [|r revs] eqn:Hps
      using rev_ind.
    + simpl in Hw. pose proof (parent_while_no_parents w fuel self other Hps).
      congruence.
    + rewrite last_snoc in Hw. simpl in Hw. eapply finds_later; eauto.
Qed.

(** C6, as stated, fails: the revision ["R"] lists no parents, and the walk
    from it neither returns nor raises, whatever the number of iterations
    it is given. *)
Lemma parent_loops_without_parents :
  ¬ ∃ fuel, Push.parent (Examples.world_of Examples.root_history) fuel
              (Push.new "R") ≠ OutOfFuel.
Proof.
  intros [fuel H]. apply H. by apply parent_while_no_parents.
Qed.

(** C6, amended.  Whenever [parent] returns, it returns a push with
    another push id than this push's; it raises nothing; and it returns [p]
    (for every large enough number of iterations) exactly when the walk from
    this push finds [p]: moving to the last listed parent as long as every
    listed parent belongs to this push, it reaches a revision that lists a
    parent of another push, and [p] is the first such parent listed. *)
Theorem parent_has_another_pushid (w : World) (self : Push.t) :
  (∀ fuel p, Push.parent w fuel self = Done p →
     Push.pushid w p ≠ Push.pushid w self) ∧
  (∀ fuel e, Push.parent w fuel self ≠ Raised e) ∧
  (∀ p, walk_finds w self self p ↔
        ∃ fuel0, ∀ fuel, (fuel0 ≤ fuel)%nat → Push.parent w fuel self = Done p).
Proof.
  split; [|split].
  - intros fuel p. apply parent_while_Done.
  - intros fuel e. apply parent_while_not_Raised.
  - intros p. split.
    + apply walk_finds_parent_while.
    + intros (fuel0 & H). apply (parent_while_walk_finds w fuel0). by apply H.
Qed.

(** In [mixed_history] the push ["P"] lists ["P0"], a revision of the same
    push, whose parent ["a1"] belongs to push 9. *)
Lemma parent_has_another_pushid_witness :
  Push.parent (Examples.world_of Examples.mixed_history) 2 (Push.new "P")
    = Done (Push.new "a1") ∧
  Push.pushid (Examples.world_of Examples.mixed_history) (Push.new "a1")
    ≠ Push.pushid (Examples.world_of Examples.mixed_history) (Push.new "P").
Proof.
  assert (H : Push.parent (Examples.world_of Examples.mixed_history) 2 (Push.new "P")
              = Done (Push.new "a1")) by reflexivity.
  split; [exact H|].
  exact (proj1 (parent_has_another_pushid
                  (Examples.world_of Examples.mixed_history) (Push.new "P")) _ _ H).
Defined.

(** ** The ancestor walk of [regressions] *)

Section RegressionFacts.

Variable w : World.

Lemma parent_mono (fuel fuel' : nat) (self p : Push.t) :
  (fuel ≤ fuel')%nat →
  Push.parent w fuel self = Done p → Push.parent w fuel' self = Done p.
Proof. apply parent_while_mono. Qed.

Lemma regressions_while_mono (label : string) (fuel fuel' : nat) (other : Push.t)
    (count : Z) (r : bool * Z) :
  (fuel ≤ fuel')%nat →
  Push.regressions_while w fuel label other count = Done r →
  Push.regressions_while w fuel' label other count = Done r.
Proof.
  revert fuel' other count. induction fuel as [|fuel IH];
    intros fuel' other count Hle; [done|].
  destruct fuel' as [|fuel']; [lia|]. simpl.
  destruct (decide (label ∈ Push.task_labels w other)); [done|].
  destruct (Push.parent w fuel other) as [q| |] eqn:Hq; try done.
  rewrite (parent_mono fuel fuel' other q) by (done || lia). simpl.
  apply IH. lia.
Qed.

Lemma regressions_while_count (label : string) (fuel : nat) (other : Push.t)
    (count : Z) (prior : bool) (c : Z) :
  Push.regressions_while w fuel label other count = Done (prior, c) →
  count ≤ c.
Proof.
  revert other count. induction fuel as [|fuel IH]; intros other count; [done|].
  simpl. destruct (decide (label ∈ Push.task_labels w other)).
  - destruct (Push.label_summaries w other) as [sums| |]; try done. simpl.
    destruct (sums !! label); [|done]. intros [= _ <-]. lia.
  - destruct (Push.parent w fuel other) as [q| |]; try done. simpl.
    intros H%IH. lia.
Qed.

(** Standing on a push that ran the label, the loop breaks at once. *)
Lemma regressions_while_found (label : string) (fuel : nat) (other : Push.t)
    (count : Z) (summaries : gmap string LabelSummary.t) (s : LabelSummary.t) :
  Push.label_summaries w other = Done summaries →
  summaries !! label = Some s →
  Push.regressions_while w (S fuel) label other count =
    Done (bool_decide (LabelSummary.status s ≠ Some PASS), count).
Proof.
  intros Hs Hl. simpl.
  destruct (label_summaries_lookup_Some w other summaries label s Hs Hl)
    as (_ & _ & Hin).
  destruct (decide (label ∈ Push.task_labels w other)); [|done].
  rewrite Hs. simpl. by rewrite Hl.
Qed.

(** The walk from [p] stops on the nearest ancestor that ran the label,
    with the number of ancestors it skipped, however many they are. *)
Lemma regressions_while_nearest (label : string) (p : Push.t) (n : nat)
    (a : Push.t) (summaries : gmap string LabelSummary.t) (s : LabelSummary.t) :
  nearest_run w label p n a →
  Push.label_summaries w a = Done summaries →
  summaries !! label = Some s →
  ∀ count, ∃ fuel0, ∀ fuel, (fuel0 ≤ fuel)%nat →
    ∃ first,
      Push.parent w fuel p = Done first ∧
      Push.regressions_while w fuel label first count =
        Done (bool_decide (LabelSummary.status s ≠ Some PASS), count + Z.of_nat n).
Proof.
  intros Hnear Hs Hl.
  induction Hnear as [p fuelp a Hp Hin|p fuelp q n a Hp Hout _ IH]; intros count.
  - exists (S fuelp). intros fuel Hle. exists a. split.
    + apply (parent_mono fuelp); [lia|done].
    + destruct fuel as [|fuel]; [lia|].
      rewrite (regressions_while_found label fuel a count summaries s Hs Hl).
      do 2 f_equal. lia.
  - destruct (IH Hs (count + 1)) as (fuel0 & Hwalk).
    exists (S (Nat.max fuelp fuel0)). intros fuel Hle. exists q. split.
    + apply (parent_mono fuelp); [lia|done].
    + destruct fuel as [|fuel]; [lia|]. simpl.
      destruct (decide (label ∈ Push.task_labels w q)); [done|].
      destruct (Hwalk fuel) as (first & Hfirst & Hres); [lia|].
      rewrite Hfirst. simpl. rewrite Hres. do 2 f_equal. lia.
Qed.

(** What the [for] loop leaves in the dict: the entries it started with,
    and, for a label of the list whose walk ended without a prior
    regression, the count of that walk. *)
Lemma regressions_for_lookup (fuel : nat) (self : Push.t) (labels : list string)
    (regs0 regs : gmap string Z) (l : string) (c : Z) :
  Push.regressions_for w fuel self labels regs0 = Done regs →
  regs !! l = Some c →
  regs0 !! l = Some c ∨
  (l ∈ labels ∧ ∃ first,
     Push.parent w fuel self = Done first ∧
     Push.regressions_while w fuel l first 0 = Done (false, c)).
Proof.
  revert regs0. induction labels as [|label labels IH]; intros regs0; simpl.
  - intros [= <-] Hl. by left.
  - unfold Push.regressions_body.
    destruct (Push.parent w fuel self) as [first| |] eqn:Hfirst; try done. simpl.
    destruct (Push.regressions_while w fuel label first 0)
      as [[prior count]| |] eqn:Hwalk; try done. simpl.
    intros Hfor Hl. destruct (IH _ Hfor Hl) as [Hin|(Hin & Hrest)].
    + destruct prior; [by left|].
      destruct (decide (label = l)) as [->|Hne].
      * rewrite lookup_insert_eq in Hin. injection Hin as ->.
        right. split; [by left|]. eauto.
      * rewrite lookup_insert_ne in Hin by done. by left.
    + right. split; [by right|done].
Qed.

Lemma regressions_lookup (fuel : nat) (self : Push.t) (regs : gmap string Z)
    (l : string) (c : Z) :
  Push.regressions w fuel self = Done regs →
  regs !! l = Some c →
  ∃ first,
    Push.parent w fuel self = Done first ∧
    Push.regressions_while w fuel l first 0 = Done (false, c).
Proof.
  unfold Push.regressions.
  destruct (Push.candidate_regressions w self) as [cands| |]; try done. simpl.
  intros Hfor Hl.
  destruct (regressions_for_lookup _ _ _ _ _ _ _ Hfor Hl) as [Hin|[_ H]]; [|done].
  by rewrite lookup_empty in Hin.
Qed.

Lemma regressions_nonneg (fuel : nat) (self : Push.t) (regs : gmap string Z)
    (l : string) (c : Z) :
  Push.regressions w fuel self = Done regs → regs !! l = Some c → 0 ≤ c.
Proof.
  intros Hr Hl. destruct (regressions_lookup _ _ _ _ _ Hr Hl) as (first & _ & Hw).
  by apply regressions_while_count in Hw.
Qed.

End RegressionFacts.

(** C5.  When the nearest ancestor that ran a label has a summary for it
    whose status is not PASS, the walk for that label ends there (for every
    large enough number of iterations) with [prior_regression] set, and the
    label is not a key of [regressions]; this covers a label that already
    failed on the immediate parent ([n = 0]). *)
Theorem prior_regression_excluded (w : World) (self : Push.t) (label : string)
    (n : nat) (a : Push.t) (summaries : gmap string LabelSummary.t)
    (s : LabelSummary.t) :
  nearest_run w label self n a →
  Push.label_summaries w a = Done summaries →
  summaries !! label = Some s →
  LabelSummary.status s ≠ Some PASS →
  (∃ fuel0, ∀ fuel, (fuel0 ≤ fuel)%nat →
     ∃ first, Push.parent w fuel self = Done first ∧
       Push.regressions_while w fuel label first 0 = Done (true, Z.of_nat n)) ∧
  (∀ fuel regs, Push.regressions w fuel self = Done regs → regs !! label = None).
Proof.
  intros Hnear Hs Hl Hst.
  destruct (regressions_while_nearest w label self n a summaries s Hnear Hs Hl 0)
    as (fuel0 & Hwalk).
  rewrite (bool_decide_eq_true_2 _ Hst) in Hwalk. split.
  - exists fuel0. intros fuel Hle. destruct (Hwalk fuel Hle) as (first & ? & ?).
    exists first. split; [done|]. by rewrite Z.add_0_l in *.
  - intros fuel regs Hr. destruct (regs !! label) as [c|] eqn:Hc; [|done].
    exfalso.
    destruct (regressions_lookup w fuel self regs label c Hr Hc)
      as (first & Hfirst & Hres).
    destruct (Hwalk (Nat.max fuel fuel0)) as (first' & Hfirst' & Hres'); [lia|].
    apply (parent_mono w fuel (Nat.max fuel fuel0)) in Hfirst; [|lia].
    assert (first' = first) as -> by congruence.
    apply (regressions_while_mono w label fuel (Nat.max fuel fuel0)) in Hres; [|lia].
    congruence.
Qed.

(** Scenario C: [L1] fails on ["P"] and was already busted on its parent. *)
Lemma prior_regression_excluded_witness :
  ∃ regs,
    Push.regressions (Examples.world_of Examples.prior_history) 3 (Push.new "P")
      = Done regs ∧
    regs !! "L1"%string = None.
Proof.
  exists ∅. split; [by vm_compute|].
  set (w := Examples.world_of Examples.prior_history).
  set (s := LabelSummary.mk "L1" [Task.mk "L1" 100 "busted" "not classified"]).
  assert (Hnear : nearest_run w "L1" (Push.new "P") 0 (Push.new "a1")).
  { apply (nearest_parent w "L1" (Push.new "P") 1); [reflexivity|].
    apply (bool_decide_unpack ("L1"%string ∈ Push.task_labels w (Push.new "a1"))).
    by vm_compute. }
  assert (Hs : Push.label_summaries w (Push.new "a1") = Done {["L1"%string := s]})
    by (by vm_compute).
  assert (Hl : ({["L1"%string := s]} : gmap string LabelSummary.t) !! "L1"%string
               = Some s) by apply lookup_singleton_eq.
  assert (Hst : LabelSummary.status s ≠ Some PASS) by (by vm_compute).
  apply (proj2 (prior_regression_excluded w (Push.new "P") "L1" 0 (Push.new "a1")
                  _ s Hnear Hs Hl Hst) 3%nat).
  by vm_compute.
Defined.

(** C4.  Whenever [regressions] returns a dict, [likely_regressions] is the
    set of its keys with count 0 and [possible_regressions] the set of its
    keys with a count above 0; no count is negative, so the two sets are
    disjoint and their union is the set of all keys. *)
Theorem regressions_partition (w : World) (fuel : nat) (self : Push.t)
    (regs : gmap string Z) :
  Push.regressions w fuel self = Done regs →
  ∃ possible likely,
    Push.possible_regressions w fuel self = Done possible ∧
    Push.likely_regressions w fuel self = Done likely ∧
    (∀ l, l ∈ likely ↔ regs !! l = Some 0) ∧
    (∀ l, l ∈ possible ↔ ∃ c, regs !! l = Some c ∧ 0 < c) ∧
    possible ## likely ∧
    possible ∪ likely = dom regs.
Proof.
  intros Hr. unfold Push.possible_regressions, Push.likely_regressions.
  rewrite Hr. simpl. eexists _, _. split; [reflexivity|]. split; [reflexivity|].
  assert (Hlik : ∀ l, l ∈ dom (filter (fun kv : string * Z => kv.2 = 0) regs)
                      ↔ regs !! l = Some 0).
  { intros l. rewrite elem_of_dom. split.
    - intros [c Hc]. apply map_lookup_filter_Some in Hc as [Hc Hz].
      simpl in Hz. by subst.
    - intros Hc. exists 0. by apply map_lookup_filter_Some. }
  assert (Hpos : ∀ l, l ∈ dom (filter (fun kv : string * Z => 0 < kv.2) regs)
                      ↔ ∃ c, regs !! l = Some c ∧ 0 < c).
  { intros l. rewrite elem_of_dom. split.
    - intros [c Hc]. apply map_lookup_filter_Some in Hc as [Hc Hz]. eauto.
    - intros (c & Hc & Hz). exists c. by apply map_lookup_filter_Some. }
  split; [done|]. split; [done|]. split.
  - intros l Hp Hl. apply Hpos in Hp as (c & Hc & Hz). apply Hlik in Hl.
    rewrite Hl in Hc. injection Hc as <-. lia.
  - apply set_eq. intros l. rewrite elem_of_union, Hpos, Hlik, elem_of_dom.
    split.
    + intros [(c & Hc & _)|Hc]; eauto.
    + intros [c Hc]. pose proof (regressions_nonneg w fuel self regs l c Hr Hc).
      destruct (decide (c = 0)) as [->|Hne]; [by right|].
      left. exists c. split; [done|lia].
Qed.

(** On ["P"] of [mixed_history], [L1] passed on the parent and [L2] was
    last run two pushes further back. *)
Lemma regressions_partition_witness :
  ∃ possible likely,
    Push.possible_regressions (Examples.world_of Examples.mixed_history) 6
      (Push.new "P") = Done possible ∧
    Push.likely_regressions (Examples.world_of Examples.mixed_history) 6
      (Push.new "P") = Done likely ∧
    "L2"%string ∈ possible ∧ "L1"%string ∈ likely.
Proof.
  assert (Hr : Push.regressions (Examples.world_of Examples.mixed_history) 6
                 (Push.new "P")
               = Done (<["L1"%string := 0]> (<["L2"%string := 2]> ∅)))
    by (by vm_compute).
  destruct (regressions_partition _ _ _ _ Hr)
    as (possible & likely & Hp & Hl & Hlik & Hpos & _).
  exists possible, likely. split; [done|]. split; [done|]. split.
  - apply Hpos. exists 2. split; [by vm_compute|lia].
  - apply Hlik. by vm_compute.
Defined.

(** C2.  On ["P"] of [deep_history] the label [L1] is a candidate, six
    ancestors in a row did not run it and the seventh passed it: the walk
    goes past the fifth ancestor and records the distance 6, not 99; and
    with the six iterations that reach the sixth ancestor it has recorded
    nothing yet. *)
Theorem regressions_search_has_no_bound :
  Push.candidate_regressions (Examples.world_of Examples.deep_history)
    (Push.new "P") = Done {["L1"%string]} ∧
  Push.regressions (Examples.world_of Examples.deep_history) 6 (Push.new "P")
    = OutOfFuel ∧
  (∀ fuel, (7 ≤ fuel)%nat →
     Push.regressions (Examples.world_of Examples.deep_history) fuel (Push.new "P")
     = Done {["L1"%string := 6]}).
Proof.
  split; [by vm_compute|]. split; [by vm_compute|].
  intros fuel Hle. unfold Push.regressions.
  assert (Hc : Push.candidate_regressions (Examples.world_of Examples.deep_history)
                 (Push.new "P") = Done {["L1"%string]}) by (by vm_compute).
  rewrite Hc. simpl. rewrite elements_singleton. simpl.
  unfold Push.regressions_body.
  rewrite (parent_mono _ 1 fuel (Push.new "P") (Push.new "a1"));
    [|lia|reflexivity].
  simpl.
  rewrite (regressions_while_mono _ "L1" 7 fuel (Push.new "a1") 0 (false, 6));
    [done|lia|by vm_compute].
Qed.

(** * Further properties of the code *)

(** ** Label summaries of a push *)

Lemma elem_of_task_labels (w : World) (self : Push.t) (label : string) :
  label ∈ Push.task_labels w self ↔
  ∃ t, t ∈ Push.tasks w self ∧ Task.label t = label.
Proof.
  unfold Push.task_labels. rewrite elem_of_list_to_set, list_elem_of_fmap.
  split; intros (t & H1 & H2); exists t; done.
Qed.

(** X1.  [label_summaries] groups the tasks of the push: its keys are the
    labels of [task_labels]; the summary under a key carries that label and
    holds, in their order in [tasks], the tasks of that label, at least
    one; and every task is in the summary of its label. *)
Theorem label_summaries_group_the_tasks (w : World) (self : Push.t) :
  ∃ summaries,
    Push.label_summaries w self = Done summaries ∧
    dom summaries = Push.task_labels w self ∧
    (∀ label s, summaries !! label = Some s →
       LabelSummary.label s = label ∧
       LabelSummary.tasks s = tasks_with_label label (Push.tasks w self) ∧
       LabelSummary.tasks s ≠ []) ∧
    (∀ t, t ∈ Push.tasks w self →
       ∃ s, summaries !! Task.label t = Some s ∧ t ∈ LabelSummary.tasks s).
Proof.
  destruct (label_summaries_Done w self) as (summaries & Hs & Hlk).
  exists summaries. split; [done|]. split; [|split].
  - apply set_eq. intros label. rewrite elem_of_dom. split.
    + intros [s Hl].
      by destruct (label_summaries_lookup_Some w self summaries label s Hs Hl)
        as (_ & _ & ?).
    + intros Hin. destruct (summaries !! label) eqn:Hl; [done|].
      by apply (label_summaries_lookup_None w self summaries label Hs) in Hl.
  - intros label s Hl.
    destruct (label_summaries_lookup_Some w self summaries label s Hs Hl)
      as (-> & Hne & _). done.
  - intros t Ht.
    assert (Hin : t ∈ tasks_with_label (Task.label t) (Push.tasks w self))
      by (by apply list_elem_of_filter).
    specialize (Hlk (Task.label t)).
    destruct (tasks_with_label (Task.label t) (Push.tasks w self)) as [|x g];
      [by apply elem_of_nil in Hin|].
    eexists. split; [exact Hlk|done].
Qed.

(** X2.  Every summary that [label_summaries] builds has a status, PASS,
    FAIL or INTERMITTENT; the status is [None] only for a summary without
    tasks, which a push never builds. *)
Theorem summary_status_is_defined (w : World) (self : Push.t) :
  (∃ summaries,
     Push.label_summaries w self = Done summaries ∧
     ∀ label s, summaries !! label = Some s →
       LabelSummary.status s = Some PASS ∨ LabelSummary.status s = Some FAIL ∨
       LabelSummary.status s = Some INTERMITTENT) ∧
  (∀ s, LabelSummary.status s = None ↔ LabelSummary.tasks s = []).
Proof.
  split.
  - destruct (label_summaries_Done w self) as (summaries & Hs & _).
    exists summaries. split; [done|]. intros label s Hl.
    destruct (label_summaries_lookup_Some w self summaries label s Hs Hl)
      as (_ & Hne & _).
    destruct (status_is_Some s Hne) as [[| |] ->]; auto.
  - intros [label tasks]. simpl. split.
    + intros Hnone. destruct tasks as [|x l]; [done|].
      rewrite status_cons in Hnone. done.
    + intros ->. reflexivity.
Qed.

(** ** Classifications, results and status *)

Lemma elem_of_classifications (s : LabelSummary.t) (c : string) :
  c ∈ LabelSummary.classifications s ↔
  ∃ t, t ∈ LabelSummary.tasks s ∧ Task.failed t = true ∧ Task.classification t = c.
Proof.
  unfold LabelSummary.classifications.
  rewrite elem_of_list_to_set, list_elem_of_fmap. split.
  - intros (t & -> & Ht). apply list_elem_of_filter in Ht as [Hf Ht].
    exists t. split; [done|]. split; [|done]. by apply Is_true_true.
  - intros (t & Ht & Hf & <-). exists t. split; [done|].
    apply list_elem_of_filter. split; [|done]. by apply Is_true_true.
Qed.

Lemma elem_of_results (s : LabelSummary.t) (r : string) :
  r ∈ LabelSummary.results s ↔ ∃ t, t ∈ LabelSummary.tasks s ∧ Task.result t = r.
Proof.
  unfold LabelSummary.results. rewrite elem_of_list_to_set, list_elem_of_fmap.
  split; intros (t & H1 & H2); exists t; done.
Qed.

Lemma failed_iff (t : Task.t) :
  Task.failed t = true ↔
  Task.result t ∈ ({["busted"; "exception"; "testfailed"]}%string : gset string).
Proof.
  unfold Task.failed. rewrite bool_decide_eq_true.
  rewrite !elem_of_cons, elem_of_nil, !elem_of_union, !elem_of_singleton. tauto.
Qed.

(** X3.  The classifications of a summary are those of its failed tasks,
    so the set is empty exactly when no task failed; for a summary with at
    least one task that is exactly when its status is PASS. *)
Theorem classifications_empty_iff_pass (s : LabelSummary.t) :
  (LabelSummary.classifications s = ∅ ↔
     ∀ t, t ∈ LabelSummary.tasks s → Task.failed t = false) ∧
  (LabelSummary.tasks s ≠ [] →
     (LabelSummary.classifications s = ∅ ↔ LabelSummary.status s = Some PASS)).
Proof.
  assert (H : LabelSummary.classifications s = ∅ ↔
              ∀ t, t ∈ LabelSummary.tasks s → Task.failed t = false).
  { split.
    - intros He t Ht. destruct (Task.failed t) eqn:Hf; [|done]. exfalso.
      apply (not_elem_of_empty (C := gset string) (Task.classification t)).
      rewrite <- He. apply elem_of_classifications. eauto.
    - intros Hall. apply set_eq. intros c. split.
      + intros (t & Ht & Hf & _)%elem_of_classifications.
        rewrite (Hall t Ht) in Hf. done.
      + by intros ?%not_elem_of_empty. }
  split; [done|]. intros Hne. rewrite H.
  rewrite (status_agree s PASS Hne) by done. rewrite Forall_forall.
  split; intros Hall t Ht; apply task_status_PASS; auto.
Qed.

(** X4.  The status of a summary with at least one task can be read off
    its set of results: PASS when none of them is a failure result, FAIL
    when all of them are. *)
Theorem status_from_results (s : LabelSummary.t) :
  LabelSummary.tasks s ≠ [] →
  (LabelSummary.status s = Some PASS ↔
     LabelSummary.results s ## {["busted"; "exception"; "testfailed"]}%string) ∧
  (LabelSummary.status s = Some FAIL ↔
     LabelSummary.results s ⊆ {["busted"; "exception"; "testfailed"]}%string).
Proof.
  intros Hne. split.
  - rewrite (status_agree s PASS Hne) by done. rewrite Forall_forall. split.
    + intros Hall r Hr Hf. apply elem_of_results in Hr as (t & Ht & <-).
      apply failed_iff in Hf. apply Hall, task_status_PASS in Ht. congruence.
    + intros Hdis t Ht. apply task_status_PASS.
      destruct (Task.failed t) eqn:Hf; [|done]. exfalso.
      apply (Hdis (Task.result t)); [|by apply failed_iff].
      apply elem_of_results. eauto.
  - rewrite (status_agree s FAIL Hne) by done. rewrite Forall_forall. split.
    + intros Hall r Hr. apply elem_of_results in Hr as (t & Ht & <-).
      apply failed_iff. by apply task_status_FAIL, Hall.
    + intros Hsub t Ht. apply task_status_FAIL, failed_iff, Hsub.
      apply elem_of_results. eauto.
Qed.

(** Two failed runs of one label, with different failure results. *)
Lemma status_from_results_witness :
  LabelSummary.status
    (LabelSummary.mk "L" [Task.mk "L" 5 "busted" "x"; Task.mk "L" 5 "testfailed" "x"])
  = Some FAIL.
Proof.
  set (s := LabelSummary.mk _ _).
  assert (Hne : LabelSummary.tasks s ≠ []) by done.
  apply (proj2 (status_from_results s Hne)).
  apply (bool_decide_unpack
           (LabelSummary.results s ⊆ {["busted"; "exception"; "testfailed"]}%string)).
  by vm_compute.
Defined.

Lemma candidate_by_tasks (w : World) (self : Push.t) (candidates : gset string)
    (label : string) :
  Push.candidate_regressions w self = Done candidates →
  label ∈ candidates ↔
    ∃ t, t ∈ Push.tasks w self ∧ Task.label t = label ∧
         Task.failed t = true ∧
         (Task.classification t = "not classified"%string ∨
          Task.classification t = "fixed by commit"%string).
Proof.
  intros Hcands.
  destruct (candidate_regressions_Done w self) as (summaries & Hs & Hc).
  rewrite Hcands in Hc. injection Hc as ->. rewrite candidate_loop_elem. split.
  - intros (s & Hl & _ & c & Hcl & Hfc).
    apply elem_of_classifications in Hcl as (t & Ht & Hf & <-).
    destruct (label_summaries_lookup_Some w self summaries label s Hs Hl)
      as (-> & _ & _).
    simpl in Ht. apply list_elem_of_filter in Ht as [Hlab Ht]. eauto 10.
  - intros (t & Ht & <- & Hf & Hfc).
    destruct (label_summaries_Done w self) as (m & Hm & Hlk).
    assert (m = summaries) as -> by congruence.
    assert (Hin : t ∈ tasks_with_label (Task.label t) (Push.tasks w self))
      by (by apply list_elem_of_filter).
    specialize (Hlk (Task.label t)).
    destruct (tasks_with_label (Task.label t) (Push.tasks w self)) as [|x g] eqn:Hg;
      [by apply elem_of_nil in Hin|].
    eexists. split; [exact Hlk|]. split.
    + intros Hpass.
      apply (status_agree _ PASS) in Hpass; [|done|done].
      rewrite Forall_forall in Hpass. apply Hpass, task_status_PASS in Hin.
      congruence.
    + exists (Task.classification t). split; [|done].
      apply elem_of_classifications. eauto.
Qed.

(** X5.  A label is a candidate regression exactly when one of its tasks
    failed with the classification "not classified" or "fixed by commit":
    the test on the status adds nothing to the test on the
    classifications. *)
Theorem candidates_are_unexplained_failures (w : World) (self : Push.t) :
  ∃ candidates,
    Push.candidate_regressions w self = Done candidates ∧
    ∀ label, label ∈ candidates ↔
      ∃ t, t ∈ Push.tasks w self ∧ Task.label t = label ∧
           Task.failed t = true ∧
           (Task.classification t = "not classified"%string ∨
            Task.classification t = "fixed by commit"%string).
Proof.
  destruct (candidate_regressions_Done w self) as (summaries & _ & Hc).
  eexists. split; [exact Hc|]. intros label.
  exact (candidate_by_tasks w self _ label Hc).
Qed.

(** ** What [regressions] records *)

Section MoreRegressionFacts.

Variable w : World.

Lemma regressions_while_not_Raised (fuel : nat) (label : string) (other : Push.t)
    (count : Z) (e : exn) :
  Push.regressions_while w fuel label other count ≠ Raised e.
Proof.
  revert other count. induction fuel as [|fuel IH]; intros other count; [done|].
  simpl. destruct (decide (label ∈ Push.task_labels w other)) as [Hin|Hout].
  - destruct (label_summaries_Done w other) as (summaries & Hs & _).
    rewrite Hs. simpl. destruct (summaries !! label) eqn:Hl; [done|].
    by apply (label_summaries_lookup_None w other summaries label Hs) in Hl.
  - destruct (Push.parent w fuel other) as [q|e'|] eqn:Hq; simpl; [apply IH| |done].
    by apply parent_while_not_Raised in Hq.
Qed.

Lemma regressions_for_not_Raised (fuel : nat) (self : Push.t)
    (labels : list string) (regs0 : gmap string Z) (e : exn) :
  Push.regressions_for w fuel self labels regs0 ≠ Raised e.
Proof.
  revert regs0. induction labels as [|label labels IH]; intros regs0; [done|].
  simpl. unfold Push.regressions_body.
  destruct (Push.parent w fuel self) as [first|e'|] eqn:Hfirst; simpl; [| |done].
  - destruct (Push.regressions_while w fuel label first 0) as [[prior c]|e'|] eqn:Hw;
      simpl; [apply IH| |done].
    by apply regressions_while_not_Raised in Hw.
  - by apply parent_while_not_Raised in Hfirst.
Qed.

(** Every label of the loop had a walk that ended. *)
Lemma regressions_for_Done (fuel : nat) (self : Push.t) (labels : list string)
    (regs0 regs : gmap string Z) (l : string) :
  Push.regressions_for w fuel self labels regs0 = Done regs →
  l ∈ labels →
  ∃ first r, Push.parent w fuel self = Done first ∧
             Push.regressions_while w fuel l first 0 = Done r.
Proof.
  revert regs0. induction labels as [|label labels IH]; intros regs0 Hfor Hin.
  - by apply elem_of_nil in Hin.
  - simpl in Hfor. unfold Push.regressions_body in Hfor.
    destruct (Push.parent w fuel self) as [first| |] eqn:Hfirst; try done.
    simpl in Hfor.
    destruct (Push.regressions_while w fuel label first 0) as [r| |] eqn:Hw;
      try done.
    apply elem_of_cons in Hin as [->|Hin]; [eauto|].
    destruct r as [prior c]. simpl in Hfor.
    destruct (IH _ Hfor Hin) as (first' & r' & Hf' & Hr'). eauto.
Qed.

(** A label whose walk ends without a prior regression keeps its count to
    the end of the loop. *)
Lemma regressions_for_keeps (fuel : nat) (self first : Push.t)
    (labels : list string) (regs0 regs : gmap string Z) (l : string) (c : Z) :
  Push.parent w fuel self = Done first →
  Push.regressions_while w fuel l first 0 = Done (false, c) →
  Push.regressions_for w fuel self labels regs0 = Done regs →
  l ∈ labels ∨ regs0 !! l = Some c →
  regs !! l = Some c.
Proof.
  intros Hfirst Hwalk. revert regs0.
  induction labels as [|label labels IH]; intros regs0 Hfor Hin; simpl in Hfor.
  - injection Hfor as <-. destruct Hin as [Hin|Hin]; [|done].
    by apply elem_of_nil in Hin.
  - unfold Push.regressions_body in Hfor. rewrite Hfirst in Hfor. simpl in Hfor.
    destruct (Push.regressions_while w fuel label first 0) as [[prior c']| |] eqn:Hw;
      try done.
    simpl in Hfor. apply (IH _ Hfor).
    destruct (decide (label = l)) as [->|Hne].
    + right. rewrite Hwalk in Hw. injection Hw as <- <-.
      by rewrite lookup_insert_eq.
    + destruct Hin as [Hin|Hin].
      * apply elem_of_cons in Hin as [->|Hin]; [done|by left].
      * right. destruct prior; [done|]. by rewrite lookup_insert_ne.
Qed.

(** A walk that ends has stopped on the nearest ancestor that ran the
    label. *)
Lemma regressions_while_Done_nearest (fuel : nat) (label : string)
    (p first : Push.t) (fuelp : nat) (count : Z) (prior : bool) (c : Z) :
  Push.parent w fuelp p = Done first →
  Push.regressions_while w fuel label first count = Done (prior, c) →
  ∃ n a summaries s,
    nearest_run w label p n a ∧
    Push.label_summaries w a = Done summaries ∧
    summaries !! label = Some s ∧
    prior = bool_decide (LabelSummary.status s ≠ Some PASS) ∧
    c = count + Z.of_nat n.
Proof.
  revert p first fuelp count.
  induction fuel as [|fuel IH]; intros p first fuelp count Hp; [done|].
  simpl. destruct (decide (label ∈ Push.task_labels w first)) as [Hin|Hout].
  - destruct (Push.label_summaries w first) as [summaries| |] eqn:Hs; try done.
    simpl. destruct (summaries !! label) as [s|] eqn:Hl; [|done].
    intros [= <- <-]. exists 0%nat, first, summaries, s.
    split; [by eapply nearest_parent|]. repeat split; try done. lia.
  - destruct (Push.parent w fuel first) as [q| |] eqn:Hq; try done. simpl.
    intros Hw. destruct (IH first q fuel (count + 1) Hq Hw)
      as (n & a & summaries & s & Hnear & Hs & Hl & -> & ->).
    exists (S n), a, summaries, s. split; [by eapply nearest_further|].
    repeat split; try done. lia.
Qed.

End MoreRegressionFacts.

(** X6.  Every key of [regressions] is a candidate regression; the
    nearest ancestor that ran it has status PASS for it, and the count under
    the key is the number of ancestors between the push and that one. *)
Theorem regressions_are_new_failures (w : World) (fuel : nat) (self : Push.t)
    (candidates : gset string) (regs : gmap string Z) (label : string) (c : Z) :
  Push.candidate_regressions w self = Done candidates →
  Push.regressions w fuel self = Done regs →
  regs !! label = Some c →
  label ∈ candidates ∧
  ∃ n a summaries s,
    c = Z.of_nat n ∧
    nearest_run w label self n a ∧
    Push.label_summaries w a = Done summaries ∧
    summaries !! label = Some s ∧
    LabelSummary.status s = Some PASS.
Proof.
  intros Hc Hr Hl. split.
  - unfold Push.regressions in Hr. rewrite Hc in Hr. simpl in Hr.
    destruct (regressions_for_lookup _ _ _ _ _ _ _ _ Hr Hl) as [He|[Hin _]].
    + by rewrite lookup_empty in He.
    + by apply elem_of_elements in Hin.
  - destruct (regressions_lookup w fuel self regs label c Hr Hl)
      as (first & Hfirst & Hwalk).
    destruct (regressions_while_Done_nearest w _ _ _ _ _ _ _ _ Hfirst Hwalk)
      as (n & a & summaries & s & Hnear & Hs & Hls & Hprior & ->).
    exists n, a, summaries, s. repeat split; try done.
    symmetry in Hprior. apply bool_decide_eq_false in Hprior.
    by apply dec_stable.
Qed.

(** On ["P"] of [mixed_history], for [L2]. *)
Lemma regressions_are_new_failures_witness :
  ("L2"%string ∈ ({["L1"; "L2"]}%string : gset string)) ∧
  ∃ n a summaries s,
    2 = Z.of_nat n ∧
    nearest_run (Examples.world_of Examples.mixed_history) "L2" (Push.new "P") n a ∧
    Push.label_summaries (Examples.world_of Examples.mixed_history) a = Done summaries ∧
    summaries !! "L2"%string = Some s ∧
    LabelSummary.status s = Some PASS.
Proof.
  apply (regressions_are_new_failures
           (Examples.world_of Examples.mixed_history) 6 (Push.new "P")
           {["L1"; "L2"]}%string (<["L1" := 0]> {["L2" := 2]})%string).
  - by vm_compute.
  - by vm_compute.
  - by vm_compute.
Defined.

(** A walk that ends at some number of iterations has the result that the
    nearest ancestor that ran the label determines. *)
Lemma regressions_while_result (w : World) (fuel : nat) (self first : Push.t)
    (label : string) (n : nat) (a : Push.t)
    (summaries : gmap string LabelSummary.t) (s : LabelSummary.t) (r : bool * Z) :
  nearest_run w label self n a →
  Push.label_summaries w a = Done summaries →
  summaries !! label = Some s →
  Push.parent w fuel self = Done first →
  Push.regressions_while w fuel label first 0 = Done r →
  r = (bool_decide (LabelSummary.status s ≠ Some PASS), Z.of_nat n).
Proof.
  intros Hnear Hs Hl Hfirst Hw.
  destruct (regressions_while_nearest w label self n a summaries s Hnear Hs Hl 0)
    as (fuel0 & Hwalk).
  destruct (Hwalk (Nat.max fuel fuel0)) as (first' & Hfirst' & Hres); [lia|].
  pose proof (parent_mono w fuel (Nat.max fuel fuel0) self first
                ltac:(lia) Hfirst) as Hfirst2.
  assert (first' = first) as -> by congruence.
  pose proof (regressions_while_mono w label fuel (Nat.max fuel fuel0) first 0 r
                ltac:(lia) Hw) as Hw2.
  rewrite Hres in Hw2. injection Hw2 as <-. by rewrite Z.add_0_l.
Qed.

(** X7.  When the nearest ancestor that ran a candidate label has status
    PASS for it, every dict that [regressions] returns records the label
    with the number of ancestors in between, however large. *)
Theorem regressions_records_distance (w : World) (fuel : nat) (self : Push.t)
    (candidates : gset string) (regs : gmap string Z) (label : string)
    (n : nat) (a : Push.t) (summaries : gmap string LabelSummary.t)
    (s : LabelSummary.t) :
  Push.candidate_regressions w self = Done candidates →
  label ∈ candidates →
  nearest_run w label self n a →
  Push.label_summaries w a = Done summaries →
  summaries !! label = Some s →
  LabelSummary.status s = Some PASS →
  Push.regressions w fuel self = Done regs →
  regs !! label = Some (Z.of_nat n).
Proof.
  intros Hc Hin Hnear Hs Hl Hst Hr.
  unfold Push.regressions in Hr. rewrite Hc in Hr. simpl in Hr.
  apply elem_of_elements in Hin.
  destruct (regressions_for_Done w _ _ _ _ _ _ Hr Hin) as (first & r & Hfirst & Hw).
  pose proof (regressions_while_result w fuel self first label n a summaries s r
                Hnear Hs Hl Hfirst Hw) as ->.
  rewrite bool_decide_eq_false_2 in Hw by (intros H; by apply H).
  apply (regressions_for_keeps w fuel self first _ _ _ _ _ Hfirst Hw Hr).
  by left.
Qed.

(** On ["P"] of [deep_history]: six ancestors skipped [L1]. *)
Lemma regressions_records_distance_witness :
  ({["L1" := 6]}%string : gmap string Z) !! "L1"%string = Some (Z.of_nat 6).
Proof.
  set (w := Examples.world_of Examples.deep_history).
  set (s := LabelSummary.mk "L1" [Task.mk "L1" 100 "success" "not classified"]).
  assert (Hout : ∀ rev, rev ∈ ["a1"; "a2"; "a3"; "a4"; "a5"; "a6"]%string →
                 "L1"%string ∉ Push.task_labels w (Push.new rev)).
  { intros rev Hrev.
    repeat (apply elem_of_cons in Hrev as [->|Hrev];
            [apply (bool_decide_unpack
                      ("L1"%string ∉ Push.task_labels w (Push.new _))); by vm_compute|]).
    by apply elem_of_nil in Hrev. }
  assert (Hnear : nearest_run w "L1" (Push.new "P") 6 (Push.new "a7")).
  { apply (nearest_further w "L1" (Push.new "P") 1 (Push.new "a1"));
      [reflexivity|apply Hout; set_solver|].
    apply (nearest_further w "L1" (Push.new "a1") 1 (Push.new "a2"));
      [reflexivity|apply Hout; set_solver|].
    apply (nearest_further w "L1" (Push.new "a2") 1 (Push.new "a3"));
      [reflexivity|apply Hout; set_solver|].
    apply (nearest_further w "L1" (Push.new "a3") 1 (Push.new "a4"));
      [reflexivity|apply Hout; set_solver|].
    apply (nearest_further w "L1" (Push.new "a4") 1 (Push.new "a5"));
      [reflexivity|apply Hout; set_solver|].
    apply (nearest_further w "L1" (Push.new "a5") 1 (Push.new "a6"));
      [reflexivity|apply Hout; set_solver|].
    apply (nearest_parent w "L1" (Push.new "a6") 1 (Push.new "a7")); [reflexivity|].
    apply (bool_decide_unpack ("L1"%string ∈ Push.task_labels w (Push.new "a7"))).
    by vm_compute. }
  apply (regressions_records_distance w 9 (Push.new "P") {["L1"%string]} _ "L1" 6
           (Push.new "a7") {["L1"%string := s]} s).
  - by vm_compute.
  - by apply elem_of_singleton.
  - exact Hnear.
  - by vm_compute.
  - apply lookup_singleton_eq.
  - by vm_compute.
  - by vm_compute.
Defined.

(** ** How [regressions] ends *)

(** X8.  The inference raises nothing of its own: the lookup
    [other.label_summaries[label]] is only reached for a label of
    [other.task_labels], which is a key, and the assertion of
    [LabelSummary] holds for the groups a push builds.  So [regressions],
    [possible_regressions] and [likely_regressions] return or run on. *)
Theorem regressions_never_raise (w : World) (fuel : nat) (self : Push.t) (e : exn) :
  Push.candidate_regressions w self ≠ Raised e ∧
  Push.regressions w fuel self ≠ Raised e ∧
  Push.possible_regressions w fuel self ≠ Raised e ∧
  Push.likely_regressions w fuel self ≠ Raised e.
Proof.
  destruct (candidate_regressions_Done w self) as (summaries & _ & Hc).
  assert (Hr : Push.regressions w fuel self ≠ Raised e).
  { unfold Push.regressions. rewrite Hc. simpl. apply regressions_for_not_Raised. }
  split; [by rewrite Hc|]. split; [done|].
  unfold Push.possible_regressions, Push.likely_regressions.
  destruct (Push.regressions w fuel self) as [regs|e'|]; simpl; [done| |done].
  split; intros [= ->]; by apply Hr.
Qed.

(** X9.  Without candidate regressions the loop body never runs: the
    result is the empty dict and both derived sets are empty, and the parent
    of the push is not even looked for (no iteration of its walk is
    needed). *)
Theorem no_candidates_no_walk (w : World) (self : Push.t) :
  Push.candidate_regressions w self = Done ∅ →
  ∀ fuel,
    Push.regressions w fuel self = Done ∅ ∧
    Push.possible_regressions w fuel self = Done ∅ ∧
    Push.likely_regressions w fuel self = Done ∅.
Proof.
  intros Hc fuel.
  assert (Hr : Push.regressions w fuel self = Done ∅).
  { unfold Push.regressions. rewrite Hc. simpl. by rewrite elements_empty. }
  split; [done|].
  unfold Push.possible_regressions, Push.likely_regressions. rewrite Hr. simpl.
  by rewrite !map_filter_empty, !dom_empty_L.
Qed.

(** The push ["R"] of [green_root_history] has no parents, so its parent is
    never found; its only task passed. *)
Lemma no_candidates_no_walk_witness :
  Push.parent (Examples.world_of MoreExamples.green_root_history) 50 (Push.new "R")
    = OutOfFuel ∧
  Push.regressions (Examples.world_of MoreExamples.green_root_history) 0 (Push.new "R")
    = Done ∅.
Proof.
  split; [by vm_compute|].
  apply (no_candidates_no_walk
           (Examples.world_of MoreExamples.green_root_history) (Push.new "R")).
  by vm_compute.
Defined.

(** X10.  With at least one candidate regression, [regressions] first
    needs the parent of the push: on a push whose revision lists no parents
    it never returns. *)
Theorem regressions_need_a_parent (w : World) (self : Push.t)
    (candidates : gset string) :
  Push.candidate_regressions w self = Done candidates →
  candidates ≠ ∅ →
  hg_parents (Push._hgmo w self) = [] →
  ∀ fuel, Push.regressions w fuel self = OutOfFuel.
Proof.
  intros Hc Hne Hnil fuel. unfold Push.regressions. rewrite Hc. simpl.
  destruct (elements candidates) as [|label labels] eqn:Hel.
  - apply elements_empty_inv in Hel. exfalso. apply Hne.
    by apply leibniz_equiv.
  - simpl. unfold Push.regressions_body, Push.parent.
    by rewrite (parent_while_no_parents w fuel self self Hnil).
Qed.

(** The push ["R"] of [root_history]: [L1] failed on it. *)
Lemma regressions_need_a_parent_witness :
  Push.regressions (Examples.world_of Examples.root_history) 1000 (Push.new "R")
    = OutOfFuel.
Proof.
  apply (regressions_need_a_parent
           (Examples.world_of Examples.root_history) (Push.new "R") {["L1"%string]}).
  - by vm_compute.
  - intros He. apply (not_elem_of_empty (C := gset string) "L1"%string).
    rewrite <- He. by apply elem_of_singleton.
  - reflexivity.
Defined.

Lemma regressions_while_stuck (w : World) (label : string) (I : Push.t → Prop) :
  (∀ q, I q → label ∉ Push.task_labels w q) →
  (∀ q fuel q', I q → Push.parent w fuel q = Done q' → I q') →
  ∀ fuel q count, I q →
    Push.regressions_while w fuel label q count = OutOfFuel.
Proof.
  intros Hout Hnext. induction fuel as [|fuel IH]; intros q count Hq; [done|].
  simpl. destruct (decide (label ∈ Push.task_labels w q)) as [Hin|_].
  - by apply Hout in Hin.
  - destruct (Push.parent w fuel q) as [q'|e|] eqn:Hq'; simpl; [|  |done].
    + apply IH. by eapply Hnext.
    + by apply parent_while_not_Raised in Hq'.
Qed.

(** X11.  The search has no bound: when a candidate label was run by none
    of the ancestors of the push (they all lie in a set [I] that is closed
    under [parent] and on which the label did not run), [regressions] never
    returns and never raises, whatever the number of iterations. *)
Theorem regressions_search_never_gives_up (w : World) (self : Push.t)
    (candidates : gset string) (label : string) (I : Push.t → Prop) :
  Push.candidate_regressions w self = Done candidates →
  label ∈ candidates →
  (∀ fuel first, Push.parent w fuel self = Done first → I first) →
  (∀ q, I q → label ∉ Push.task_labels w q) →
  (∀ q fuel q', I q → Push.parent w fuel q = Done q' → I q') →
  ∀ fuel, Push.regressions w fuel self = OutOfFuel.
Proof.
  intros Hc Hin Hfirst Hout Hnext fuel.
  destruct (Push.regressions w fuel self) as [regs|e|] eqn:Hr; [| |done].
  - exfalso. unfold Push.regressions in Hr. rewrite Hc in Hr. simpl in Hr.
    apply elem_of_elements in Hin.
    destruct (regressions_for_Done w _ _ _ _ _ _ Hr Hin) as (first & r & Hf & Hw).
    rewrite (regressions_while_stuck w label I Hout Hnext fuel first 0) in Hw;
      [done|by eapply Hfirst].
  - exfalso. unfold Push.regressions in Hr. rewrite Hc in Hr. simpl in Hr.
    by apply regressions_for_not_Raised in Hr.
Qed.

Lemma parent_while_listed (w : World) (fuel : nat) (self other p : Push.t) :
  Push.pushid w other = Push.pushid w self →
  Push.parent_while w fuel self other = Done p →
  ∃ other' rev,
    Push.pushid w other' = Push.pushid w self ∧
    rev ∈ hg_parents (Push._hgmo w other') ∧ p = Push.new rev.
Proof.
  revert other. induction fuel as [|fuel IH]; intros other Hsame; [done|]. simpl.
  destruct (parent_for_cases w self (hg_parents (Push._hgmo w other)) other)
    as [(same & rev & rest & Heq & _ & _ & Hp)|[Hall Hp]]; rewrite Hp.
  - intros [= <-]. exists other, rev. split; [done|]. split; [|done].
    rewrite Heq. apply elem_of_app. right. by left.
  - apply IH. destruct (last (hg_parents (Push._hgmo w other))) as [r|] eqn:Hlast;
      [|done].
    simpl. rewrite Forall_forall in Hall. apply Hall.
    apply last_Some in Hlast as [l' ->]. apply elem_of_app. right. by left.
Qed.

(** In [endless_world], from the revision [""]: no ancestor ran [L1]. *)
Lemma regressions_search_never_gives_up_witness :
  Push.regressions MoreExamples.endless_world 500 (Push.new "") = OutOfFuel.
Proof.
  apply (regressions_search_never_gives_up MoreExamples.endless_world (Push.new "")
           {["L1"%string]} "L1" (fun q => Push.rev q ≠ EmptyString)).
  - by vm_compute.
  - by apply elem_of_singleton.
  - intros fuel first Hp.
    apply (parent_while_listed _ _ _ _ _ eq_refl) in Hp as (other & rev & _ & Hrev & ->).
    simpl in Hrev. apply list_elem_of_singleton in Hrev as ->. done.
  - intros q Hq. unfold Push.task_labels, Push.tasks. simpl.
    destruct (decide (Push.rev q = EmptyString)); [done|].
    simpl. apply not_elem_of_empty.
  - intros q fuel q' _ Hp.
    apply (parent_while_listed _ _ _ _ _ eq_refl) in Hp as (other & rev & _ & Hrev & ->).
    simpl in Hrev. apply list_elem_of_singleton in Hrev as ->. done.
Defined.

(** ** The parent of a push, continued *)

(** X12.  The push that [parent] returns is built with the default branch:
    it is an autoland push whatever the branch of this push, and its
    revision is listed among the parents of a revision of this same push. *)
Theorem parent_is_a_listed_autoland_push (w : World) (fuel : nat)
    (self p : Push.t) :
  Push.parent w fuel self = Done p →
  Push.branch p = "autoland"%string ∧
  ∃ other, Push.pushid w other = Push.pushid w self ∧
           Push.rev p ∈ hg_parents (Push._hgmo w other).
Proof.
  intros Hp.
  apply (parent_while_listed _ _ _ _ _ eq_refl) in Hp as (other & rev & Hsame & Hrev & ->).
  split; [done|]. by exists other.
Qed.

(** The parent of ["P"] on the branch ["mozilla-central"] in
    [mixed_history]. *)
Lemma parent_is_a_listed_autoland_push_witness :
  Push.branch (Push.new "a1") = "autoland"%string ∧
  ∃ other,
    Push.pushid (Examples.world_of Examples.mixed_history) other
      = Push.pushid (Examples.world_of Examples.mixed_history)
          (Push.mk "P" "mozilla-central") ∧
    Push.rev (Push.new "a1")
      ∈ hg_parents (Push._hgmo (Examples.world_of Examples.mixed_history) other).
Proof.
  apply (parent_is_a_listed_autoland_push
           (Examples.world_of Examples.mixed_history) 2
           (Push.mk "P" "mozilla-central") (Push.new "a1")).
  reflexivity.
Defined.

(** ** Durations, continued *)

Lemma first_seen_after_all (tasks before : list Task.t) :
  NoDup (Task.label <$> tasks) →
  (∀ t, t ∈ tasks → Task.label t ∉ Task.label <$> before) →
  first_seen_after before tasks = tasks.
Proof.
  revert before. induction tasks as [|x l IH]; intros before Hnd Hfresh.
  - reflexivity.
  - rewrite first_seen_after_cons. rewrite fmap_cons in Hnd.
    apply NoDup_cons in Hnd as [Hx Hnd].
    destruct (decide (Task.label x ∈ Task.label <$> before)) as [Hin|_].
    + exfalso. apply (Hfresh x); [by left|done].
    + simpl. f_equal. apply IH; [done|]. intros t Ht.
      rewrite fmap_app, elem_of_app. intros [Hb|Hxx].
      * apply (Hfresh t); [by right|done].
      * simpl in Hxx. apply list_elem_of_singleton in Hxx.
        apply Hx. rewrite <- Hxx. apply list_elem_of_fmap. eauto.
Qed.

(** X14.  On a push without retriggers or backfills of a label it already
    ran (no two tasks share a label), [scheduled_duration] and [duration]
    agree. *)
Theorem scheduled_duration_without_retriggers (w : World) (self : Push.t) :
  NoDup (Task.label <$> Push.tasks w self) →
  Push.scheduled_duration w self = Push.duration w self.
Proof.
  intros Hnd. unfold Push.scheduled_duration, Push.duration.
  rewrite scheduled_seconds, sum_loop. unfold first_seen_tasks.
  rewrite first_seen_after_all; [done|done|].
  intros t _ Hin. simpl in Hin. by apply elem_of_nil in Hin.
Qed.

(** ["P"] of [distinct_history] ran three labels once each, for 16000
    seconds. *)
Lemma scheduled_duration_without_retriggers_witness :
  Push.scheduled_duration (Examples.world_of MoreExamples.distinct_history)
    (Push.new "P")
  = Push.duration (Examples.world_of MoreExamples.distinct_history) (Push.new "P") ∧
  Push.duration (Examples.world_of MoreExamples.distinct_history) (Push.new "P")
  = Done 4.
Proof.
  split; [|by vm_compute].
  apply scheduled_duration_without_retriggers.
  apply (bool_decide_unpack
           (NoDup (Task.label <$> Push.tasks
                     (Examples.world_of MoreExamples.distinct_history) (Push.new "P")))).
  by vm_compute.
Defined.

(** ** A push without usable rows *)

(** X15.  When ingestion drops every row of the query (or there is none),
    the push has no tasks and no labels, both durations are 0, there is no
    label summary and no candidate, and [regressions] returns the empty dict
    without walking the ancestors. *)
Theorem push_without_valid_rows (w : World) (self : Push.t) :
  Forall (fun kw => row_is_valid kw = false) (push_results w (Push.rev self)) →
  Push.tasks w self = [] ∧
  Push.task_labels w self = ∅ ∧
  Push.duration w self = Done 0 ∧
  Push.scheduled_duration w self = Done 0 ∧
  Push.label_summaries w self = Done ∅ ∧
  Push.candidate_regressions w self = Done ∅ ∧
  ∀ fuel, Push.regressions w fuel self = Done ∅.
Proof.
  intros Hall.
  assert (Ht : Push.tasks w self = []).
  { apply (fmap_nil_inv row_of_task). unfold Push.tasks.
    rewrite tasks_loop_rows. simpl.
    induction Hall as [|kw rows Hkw _ IH]; [done|].
    rewrite filter_cons. by rewrite Hkw. }
  assert (Hs : Push.label_summaries w self = Done ∅).
  { unfold Push.label_summaries. rewrite Ht. simpl. by rewrite map_fold_empty. }
  assert (Hc : Push.candidate_regressions w self = Done ∅).
  { unfold Push.candidate_regressions. rewrite Hs. simpl.
    by rewrite map_fold_empty. }
  split; [done|]. split; [unfold Push.task_labels; by rewrite Ht|].
  split; [unfold Push.duration; by rewrite Ht|].
  split; [unfold Push.scheduled_duration; by rewrite Ht|].
  split; [done|]. split; [done|].
  intros fuel. unfold Push.regressions. rewrite Hc. simpl.
  by rewrite elements_empty.
Qed.

(** ["P"] of [junk_history]: one row lacks its duration, one has duration
    0 and one a negative duration. *)
Lemma push_without_valid_rows_witness :
  Push.tasks (Examples.world_of MoreExamples.junk_history) (Push.new "P") = [] ∧
  Push.regressions (Examples.world_of MoreExamples.junk_history) 0 (Push.new "P")
    = Done ∅.
Proof.
  assert (Hrows : Forall (fun kw => row_is_valid kw = false)
            (push_results (Examples.world_of MoreExamples.junk_history)
               (Push.rev (Push.new "P")))).
  { repeat constructor. }
  destruct (push_without_valid_rows _ _ Hrows) as (Ht & _ & _ & _ & _ & _ & Hr).
  split; [exact Ht|exact (Hr 0%nat)].
Defined.

(** ** The decision artifacts *)

Lemma rsplit1_shape (sep : Ascii.ascii) (s : string) :
  Decision.rsplit1 sep s = [s] ∨
  ∃ a b, Decision.rsplit1 sep s = [a; b] ∧ s = a +:+ String sep b ∧
         Decision.rsplit1 sep b = [b].
Proof.
  induction s as [|c s IH]; [by left|]. simpl.
  destruct IH as [Hs|(a & b & -> & -> & Hb)].
  - rewrite Hs. destruct (decide (c = sep)) as [->|Hne]; [|by left].
    right. by exists EmptyString, s.
  - right. by exists (String c a), b.
Qed.

Lemma rsplit1_append (sep : Ascii.ascii) (a b : string) :
  Decision.rsplit1 sep b = [b] →
  Decision.rsplit1 sep (a +:+ String sep b) = [a; b].
Proof.
  intros Hb. induction a as [|c a IH]; simpl.
  - rewrite Hb. by destruct (decide (sep = sep)).
  - by rewrite IH.
Qed.

(** [rsplit1 sep s] cuts [s] at its last [sep]: the result is [s] alone or
    two parts; two parts, joined by [sep], give [s] back, and the second
    holds no [sep]; and a string [a sep b] whose [b] holds no [sep] is cut
    into [a] and [b]. *)
Lemma rsplit1_cuts_at_the_last_separator (sep : Ascii.ascii) (s : string) :
  (Decision.rsplit1 sep s = [s] ∨
   ∃ a b, Decision.rsplit1 sep s = [a; b] ∧ s = a +:+ String sep b ∧
          Decision.rsplit1 sep b = [b]) ∧
  (∀ a b, Decision.rsplit1 sep b = [b] →
          Decision.rsplit1 sep (a +:+ String sep b) = [a; b]) ∧
  (Decision.rsplit1 sep s = [s] ↔ ∀ a b, s ≠ a +:+ String sep b).
Proof.
  split; [apply rsplit1_shape|]. split; [apply rsplit1_append|]. split.
  - intros Hs a b ->.
    destruct (rsplit1_shape sep b) as [Hb|(a' & b' & _ & -> & Hb')].
    + rewrite (rsplit1_append sep a b Hb) in Hs. done.
    + assert (Heq : a +:+ String sep (a' +:+ String sep b')
                    = (a +:+ String sep a') +:+ String sep b').
      { clear. induction a as [|c a IH]; [reflexivity|].
        change (String c (a +:+ String sep (a' +:+ String sep b'))
                = String c ((a +:+ String sep a') +:+ String sep b')).
        by rewrite IH. }
      rewrite Heq in Hs. rewrite (rsplit1_append sep _ b' Hb') in Hs. done.
  - intros Hno. destruct (rsplit1_shape sep s) as [?|(a & b & _ & -> & _)]; [done|].
    by destruct (Hno a b).
Qed.

Section DecisionFacts.

Variable d : DecisionWorld.

Lemma get_artifact_for_skip (before urls : list string) (name : string) :
  Forall (fun u => ∃ f, Decision.rsplit1 Decision.slash u !! 1%nat = Some f ∧ f ≠ name)
    before →
  Decision.get_artifact_for d (before ++ urls) name =
  Decision.get_artifact_for d urls name.
Proof.
  induction 1 as [|u before (f & Hf & Hne) _ IH]; [done|].
  simpl. rewrite Hf. by destruct (decide (f = name)).
Qed.

End DecisionFacts.

(** X16.  [_get_decision_artifact] returns the parsed body of the first
    URL whose part after the last ['/'] is the requested name; URLs listed
    before it with another last part are passed over, and URLs after it are
    not looked at. *)
Theorem get_decision_artifact_first_match (d : DecisionWorld) (self : Push.t)
    (name : string) (before : list string) (url : string) (after : list string)
    (rows : list (list string)) :
  decision_artifacts d (Push.rev self) = (before ++ url :: after) :: rows →
  Forall (fun u => ∃ f, Decision.rsplit1 Decision.slash u !! 1%nat = Some f ∧ f ≠ name)
    before →
  Decision.rsplit1 Decision.slash url !! 1%nat = Some name →
  Decision._get_decision_artifact d self name = Decision.Ok (get_json d url).
Proof.
  intros Hrows Hbefore Hurl. unfold Decision._get_decision_artifact,
    Decision._decision_artifact_urls. rewrite Hrows.
  rewrite (get_artifact_for_skip d before _ name Hbefore). simpl.
  rewrite Hurl. by destruct (decide (name = name)).
Qed.

(** The decision task of ["P"] in [decision_world]: [task-graph.json] is
    the third URL. *)
Lemma get_decision_artifact_first_match_witness :
  Decision._get_decision_artifact MoreExamples.decision_world (Push.new "P")
    "task-graph.json"
  = Decision.Ok (get_json MoreExamples.decision_world
                   "https://queue/task/D/artifacts/public/task-graph.json").
Proof.
  apply (get_decision_artifact_first_match MoreExamples.decision_world (Push.new "P")
           "task-graph.json"
           ["https://queue/task/D/artifacts/public/parameters.yml";
            "https://queue/task/D/artifacts/public/target-tasks.json"]%string
           "https://queue/task/D/artifacts/public/task-graph.json" [] []).
  - reflexivity.
  - repeat constructor.
    + exists "parameters.yml"%string. split; [by vm_compute|done].
    + exists "target-tasks.json"%string. split; [by vm_compute|done].
  - by vm_compute.
Defined.

(** X17.  When no URL of the decision task ends in the requested name,
    [_get_decision_artifact] returns [None]; [target_task_labels] then
    raises [TypeError] and [scheduled_task_labels] raises
    [AttributeError]. *)
Theorem missing_decision_artifact (d : DecisionWorld) (self : Push.t)
    (urls : list string) (rows : list (list string)) :
  decision_artifacts d (Push.rev self) = urls :: rows →
  (∀ name,
     Forall (fun u => ∃ f, Decision.rsplit1 Decision.slash u !! 1%nat = Some f ∧ f ≠ name)
       urls →
     Decision._get_decision_artifact d self name = Decision.Ok JNull) ∧
  (Forall (fun u => ∃ f, Decision.rsplit1 Decision.slash u !! 1%nat = Some f ∧
                         f ≠ "target-tasks.json"%string) urls →
   Decision.target_task_labels d self = Decision.Raise Decision.TypeError) ∧
  (Forall (fun u => ∃ f, Decision.rsplit1 Decision.slash u !! 1%nat = Some f ∧
                         f ≠ "task-graph.json"%string) urls →
   Decision.scheduled_task_labels d self = Decision.Raise Decision.AttributeError).
Proof.
  intros Hrows.
  assert (Hnone : ∀ name,
     Forall (fun u => ∃ f, Decision.rsplit1 Decision.slash u !! 1%nat = Some f ∧ f ≠ name)
       urls →
     Decision._get_decision_artifact d self name = Decision.Ok JNull).
  { intros name Hall. unfold Decision._get_decision_artifact,
      Decision._decision_artifact_urls. rewrite Hrows.
    rewrite <- (app_nil_r urls). by rewrite (get_artifact_for_skip d urls [] name Hall). }
  split; [done|]. split; intros Hall.
  - unfold Decision.target_task_labels. by rewrite (Hnone _ Hall).
  - unfold Decision.scheduled_task_labels. by rewrite (Hnone _ Hall).
Qed.

(** The decision task of ["P"] in [decision_world] has no
    [actions.json]. *)
Lemma missing_decision_artifact_witness :
  Decision._get_decision_artifact MoreExamples.decision_world (Push.new "P")
    "actions.json" = Decision.Ok JNull.
Proof.
  refine (proj1 (missing_decision_artifact MoreExamples.decision_world (Push.new "P")
                   _ [] eq_refl) "actions.json"%string _).
  repeat constructor.
  - exists "parameters.yml"%string. split; [by vm_compute|done].
  - exists "target-tasks.json"%string. split; [by vm_compute|done].
  - exists "task-graph.json"%string. split; [by vm_compute|done].
Defined.

(** X18.  The lookup of an artifact raises [IndexError] when the query
    returned no row, and when it meets a URL without any ['/'] before a URL
    that matches, even if a later URL would match. *)
Theorem get_decision_artifact_index_error (d : DecisionWorld) (self : Push.t)
    (name : string) :
  (decision_artifacts d (Push.rev self) = [] →
   Decision._get_decision_artifact d self name = Decision.Raise Decision.IndexError) ∧
  (∀ before url after rows,
     decision_artifacts d (Push.rev self) = (before ++ url :: after) :: rows →
     Forall (fun u => ∃ f, Decision.rsplit1 Decision.slash u !! 1%nat = Some f ∧ f ≠ name)
       before →
     (∀ a b, url ≠ a +:+ String Decision.slash b) →
     Decision._get_decision_artifact d self name = Decision.Raise Decision.IndexError).
Proof.
  split.
  - intros Hrows. unfold Decision._get_decision_artifact,
      Decision._decision_artifact_urls. by rewrite Hrows.
  - intros before url after rows Hrows Hbefore Hno.
    unfold Decision._get_decision_artifact, Decision._decision_artifact_urls.
    rewrite Hrows, (get_artifact_for_skip d before _ name Hbefore). simpl.
    destruct (rsplit1_shape Decision.slash url) as [->|(a & b & _ & -> & _)]; [done|].
    by destruct (Hno a b).
Qed.

(** A decision task whose first URL holds no ['/']: the second URL is not
    reached. *)
Lemma get_decision_artifact_index_error_witness :
  Decision._get_decision_artifact
    {| decision_artifacts := fun _ => [["target-tasks"; "public/target-tasks.json"]%string];
       get_json := fun _ => JLabels [] |}
    (Push.new "P") "target-tasks.json"
  = Decision.Raise Decision.IndexError.
Proof.
  set (d := Build_DecisionWorld _ _).
  refine (proj2 (get_decision_artifact_index_error d (Push.new "P") "target-tasks.json")
            [] "target-tasks"%string ["public/target-tasks.json"%string] []
            eq_refl _ _).
  - constructor.
  - apply (rsplit1_cuts_at_the_last_separator Decision.slash "target-tasks").
    reflexivity.
Defined.

Lemma rsplit1_file_has_no_separator (sep : Ascii.ascii) (url f : string) :
  Decision.rsplit1 sep url !! 1%nat = Some f → Decision.rsplit1 sep f = [f].
Proof.
  destruct (rsplit1_shape sep url) as [->|(a & b & -> & _ & Hb)]; [done|].
  by intros [= <-].
Qed.

(** X19.  A URL [dir/name] whose [name] holds no ['/'] is found under
    [name] when it comes first; a requested name that itself holds a ['/']
    is never found, whatever the URLs: the lookup returns [None] or raises
    [IndexError]. *)
Theorem artifact_is_found_by_its_last_segment (d : DecisionWorld) (self : Push.t) :
  (∀ dir name rest rows,
     decision_artifacts d (Push.rev self)
       = ((dir +:+ String Decision.slash name) :: rest) :: rows →
     (∀ a b, name ≠ a +:+ String Decision.slash b) →
     Decision._get_decision_artifact d self name
       = Decision.Ok (get_json d (dir +:+ String Decision.slash name))) ∧
  (∀ a b,
     Decision._get_decision_artifact d self (a +:+ String Decision.slash b)
       = Decision.Ok JNull ∨
     Decision._get_decision_artifact d self (a +:+ String Decision.slash b)
       = Decision.Raise Decision.IndexError).
Proof.
  split.
  - intros dir name rest rows Hrows Hno.
    unfold Decision._get_decision_artifact, Decision._decision_artifact_urls.
    rewrite Hrows. simpl.
    assert (Hname : Decision.rsplit1 Decision.slash name = [name]).
    { destruct (rsplit1_shape Decision.slash name) as [?|(a & b & _ & -> & _)];
        [done|]. by destruct (Hno a b). }
    rewrite (rsplit1_append Decision.slash dir name Hname). simpl.
    by destruct (decide (name = name)).
  - intros a b. unfold Decision._get_decision_artifact,
      Decision._decision_artifact_urls.
    destruct (decision_artifacts d (Push.rev self)) as [|urls rows]; [by right|].
    induction urls as [|url urls IH]; [by left|]. simpl.
    destruct (Decision.rsplit1 Decision.slash url !! 1%nat) as [f|] eqn:Hf;
      [|by right].
    destruct (decide (f = a +:+ String Decision.slash b)) as [->|_]; [|done].
    apply rsplit1_file_has_no_separator in Hf.
    destruct (rsplit1_shape Decision.slash b) as [Hb|(a' & b' & _ & -> & Hb')].
    + rewrite (rsplit1_append _ a b Hb) in Hf. done.
    + exfalso.
      assert (Heq : a +:+ String Decision.slash (a' +:+ String Decision.slash b')
                    = (a +:+ String Decision.slash a') +:+ String Decision.slash b').
      { clear. induction a as [|c a IH]; [reflexivity|].
        change (String c (a +:+ String Decision.slash (a' +:+ String Decision.slash b'))
                = String c ((a +:+ String Decision.slash a')
                            +:+ String Decision.slash b')).
        by rewrite IH. }
      rewrite Heq in Hf. rewrite (rsplit1_append _ _ b' Hb') in Hf. done.
Qed.

Lemma labels_of_Ok (tasks : list (option string)) (labels : list string) :
  Decision.labels_of tasks = Decision.Ok labels ↔ tasks = Some <$> labels.
Proof.
  revert labels. induction tasks as [|[l|] tasks IH]; intros labels; simpl.
  - split; [intros [= <-]; done|]. by destruct labels.
  - destruct (Decision.labels_of tasks) as [ls|e].
    + split.
      * intros [= <-]. simpl. f_equal. by apply IH.
      * destruct labels as [|l' labels]; [done|]. intros [= -> H].
        apply IH in H. by injection H as ->.
    + split; [done|]. destruct labels as [|l' labels]; [done|]. intros [= -> H].
      by apply IH in H.
  - split; [done|]. by destruct labels.
Qed.

Lemma labels_of_Raise (tasks : list (option string)) (e : Decision.error) :
  Decision.labels_of tasks = Decision.Raise e → e = Decision.KeyError ∧ None ∈ tasks.
Proof.
  induction tasks as [|[l|] tasks IH]; simpl; [done| |].
  - destruct (Decision.labels_of tasks) as [ls|e']; [done|].
    intros [= ->]. destruct (IH eq_refl) as [-> Hin]. split; [done|by right].
  - intros [= <-]. split; [done|by left].
Qed.

(** X20.  With a task graph as [task-graph.json], [scheduled_task_labels]
    is the set of the labels of its task definitions when each of them has
    a ['label'], and raises [KeyError] when one of them has none. *)
Theorem scheduled_task_labels_of_graph (d : DecisionWorld) (self : Push.t)
    (graph : gmap string (option string)) :
  Decision._get_decision_artifact d self "task-graph.json"
    = Decision.Ok (JGraph graph) →
  ((∀ id t, graph !! id = Some t → is_Some t) →
     ∃ scheduled,
       Decision.scheduled_task_labels d self = Decision.Ok scheduled ∧
       ∀ label, label ∈ scheduled ↔ ∃ id, graph !! id = Some (Some label)) ∧
  ((∃ id, graph !! id = Some None) →
     Decision.scheduled_task_labels d self = Decision.Raise Decision.KeyError).
Proof.
  intros Hart. unfold Decision.scheduled_task_labels. rewrite Hart.
  destruct (Decision.labels_of (snd <$> map_to_list graph)) as [labels|e] eqn:Hl.
  - apply labels_of_Ok in Hl. split.
    + intros _. eexists. split; [reflexivity|]. intros label.
      rewrite elem_of_list_to_set. split.
      * intros Hin.
        assert (Hs : Some label ∈ snd <$> map_to_list graph).
        { rewrite Hl. apply list_elem_of_fmap. eauto. }
        apply list_elem_of_fmap in Hs as ([id t] & Ht & Hin').
        simpl in Ht. subst t. apply elem_of_map_to_list in Hin'. eauto.
      * intros [id Hid]. apply elem_of_map_to_list in Hid.
        assert (Hs : Some label ∈ snd <$> map_to_list graph).
        { apply list_elem_of_fmap. by exists (id, Some label). }
        rewrite Hl in Hs. apply list_elem_of_fmap in Hs as (l' & [= ->] & ?). done.
    + intros [id Hid]. exfalso. apply elem_of_map_to_list in Hid.
      assert (Hs : None ∈ snd <$> map_to_list graph).
      { apply list_elem_of_fmap. by exists (id, None). }
      rewrite Hl in Hs. by apply list_elem_of_fmap in Hs as (l' & ? & ?).
  - apply labels_of_Raise in Hl as [-> Hnone]. split; [|done].
    intros Hall. exfalso.
    apply list_elem_of_fmap in Hnone as ([id t] & Ht & Hin).
    simpl in Ht. subst t. apply elem_of_map_to_list in Hin.
    by destruct (Hall id None Hin).
Qed.

(** The task graph of ["P"] in [decision_world] holds [L1] and [L3]. *)
Lemma scheduled_task_labels_of_graph_witness :
  ∃ scheduled,
    Decision.scheduled_task_labels MoreExamples.decision_world (Push.new "P")
      = Decision.Ok scheduled ∧
    ∀ label, label ∈ scheduled ↔
      ∃ id, (<["t1" := Some "L1"]> (<["t3" := Some "L3"]> ∅)
               : gmap string (option string))%string !! id = Some (Some label).
Proof.
  refine (proj1 (scheduled_task_labels_of_graph MoreExamples.decision_world
                   (Push.new "P") _ _) _).
  - by vm_compute.
  - intros id t Hid.
    destruct (decide (id = "t1"%string)) as [->|H1].
    { rewrite lookup_insert_eq in Hid. injection Hid as <-. eauto. }
    rewrite lookup_insert_ne in Hid by done.
    destruct (decide (id = "t3"%string)) as [->|H3].
    { rewrite lookup_insert_eq in Hid. injection Hid as <-. eauto. }
    rewrite lookup_insert_ne in Hid by done. by rewrite lookup_empty in Hid.
Defined.

(** ** Likely and possible regressions, by the parent push *)

(** X22.  When they return, [likely_regressions] is the set of the
    candidates that the parent push ran with status PASS, and every label of
    [possible_regressions] is a candidate that the parent push did not
    run. *)
Theorem likely_and_possible_by_parent (w : World) (fuel : nat) (self : Push.t)
    (candidates likely possible : gset string) :
  Push.candidate_regressions w self = Done candidates →
  Push.likely_regressions w fuel self = Done likely →
  Push.possible_regressions w fuel self = Done possible →
  (∀ label, label ∈ likely ↔
     label ∈ candidates ∧
     ∃ first summaries s,
       Push.parent w fuel self = Done first ∧
       Push.label_summaries w first = Done summaries ∧
       summaries !! label = Some s ∧
       LabelSummary.status s = Some PASS) ∧
  (∀ label, label ∈ possible →
     label ∈ candidates ∧
     ∃ first, Push.parent w fuel self = Done first ∧
              label ∉ Push.task_labels w first).
Proof.
  intros Hc Hlik Hpos.
  unfold Push.likely_regressions in Hlik. unfold Push.possible_regressions in Hpos.
  destruct (Push.regressions w fuel self) as [regs| |] eqn:Hr; try done.
  simpl in Hlik, Hpos. injection Hlik as <-. injection Hpos as <-.
  assert (Hcand : ∀ label c, regs !! label = Some c → label ∈ candidates).
  { intros label c Hl. pose proof Hr as Hr'. unfold Push.regressions in Hr'.
    rewrite Hc in Hr'. simpl in Hr'.
    destruct (regressions_for_lookup _ _ _ _ _ _ _ _ Hr' Hl) as [He|[Hin _]].
    - by rewrite lookup_empty in He.
    - by apply elem_of_elements in Hin. }
  split.
  - intros label. rewrite elem_of_dom. split.
    + intros [c Hl]. apply map_lookup_filter_Some in Hl as [Hl Hz].
      simpl in Hz. subst c. split; [by eapply Hcand|].
      destruct (regressions_lookup w fuel self regs label 0 Hr Hl)
        as (first & Hfirst & Hwalk).
      exists first. destruct fuel as [|fuel]; [done|]. simpl in Hwalk.
      destruct (decide (label ∈ Push.task_labels w first)) as [Hin|Hout].
      * destruct (Push.label_summaries w first) as [summaries| |] eqn:Hs;
          try done.
        simpl in Hwalk. destruct (summaries !! label) as [s|] eqn:Hls; [|done].
        injection Hwalk as Hprior. apply bool_decide_eq_false in Hprior.
        exists summaries, s. split; [done|]. split; [done|]. split; [done|].
        by apply dec_stable.
      * destruct (Push.parent w fuel first) as [q| |]; try done. simpl in Hwalk.
        apply regressions_while_count in Hwalk. lia.
    + intros (Hin & first & summaries & s & Hfirst & Hs & Hl & Hst).
      exists 0. apply map_lookup_filter_Some. split; [|done].
      destruct (label_summaries_lookup_Some w first summaries label s Hs Hl)
        as (_ & _ & Hran).
      assert (Hnear : nearest_run w label self 0 first)
        by (by eapply nearest_parent).
      pose proof Hr as Hfor. unfold Push.regressions in Hfor.
      rewrite Hc in Hfor. simpl in Hfor. apply elem_of_elements in Hin.
      destruct (regressions_for_Done w _ _ _ _ _ _ Hfor Hin)
        as (first' & r & Hfirst' & Hw).
      pose proof (regressions_while_result w fuel self first' label 0 first
                    summaries s r Hnear Hs Hl Hfirst' Hw) as ->.
      rewrite bool_decide_eq_false_2 in Hw by (intros H; by apply H).
      apply (regressions_for_keeps w fuel self first' _ _ _ _ _ Hfirst' Hw Hfor).
      by left.
  - intros label Hp. apply elem_of_dom in Hp as [c Hl].
    apply map_lookup_filter_Some in Hl as [Hl Hz]. simpl in Hz.
    split; [by eapply Hcand|].
    destruct (regressions_lookup w fuel self regs label c Hr Hl)
      as (first & Hfirst & Hwalk).
    exists first. split; [done|]. intros Hin.
    destruct fuel as [|fuel]; [done|]. simpl in Hwalk.
    destruct (decide (label ∈ Push.task_labels w first)); [|done].
    destruct (Push.label_summaries w first) as [summaries| |]; try done.
    simpl in Hwalk. destruct (summaries !! label); [|done].
    injection Hwalk as _ <-. lia.
Qed.

(** On ["P"] of [mixed_history]: the parent ["a1"] ran [L1], which passed,
    and did not run [L2]. *)
Lemma likely_and_possible_by_parent_witness :
  "L2"%string ∈ ({["L1"; "L2"]}%string : gset string) ∧
  ∃ first,
    Push.parent (Examples.world_of Examples.mixed_history) 6 (Push.new "P")
      = Done first ∧
    "L2"%string ∉ Push.task_labels (Examples.world_of Examples.mixed_history) first.
Proof.
  refine (proj2 (likely_and_possible_by_parent
                   (Examples.world_of Examples.mixed_history) 6 (Push.new "P")
                   {["L1"; "L2"]}%string {["L1"]}%string {["L2"]}%string _ _ _)
                "L2"%string _).
  - by vm_compute.
  - by vm_compute.
  - by vm_compute.
  - by apply elem_of_singleton.
Defined.

(** ** Scheduled duration and label summaries *)

Lemma elem_of_first_seen_after (tasks before : list Task.t) (t : Task.t) :
  t ∈ first_seen_after before tasks ↔
  (Task.label t ∉ Task.label <$> before) ∧
  head (tasks_with_label (Task.label t) tasks) = Some t.
Proof.
  revert before. induction tasks as [|x l IH]; intros before.
  - unfold first_seen_after. simpl. split.
    + intros H. by apply elem_of_nil in H.
    + intros [_ H]. done.
  - rewrite first_seen_after_cons, elem_of_app, IH, fmap_app, elem_of_app.
    unfold tasks_with_label. rewrite filter_cons. simpl.
    rewrite list_elem_of_singleton.
    destruct (decide (Task.label x = Task.label t)) as [Heq|Hne]; simpl.
    + split.
      * intros [Hx|[Hout _]]; [|exfalso; apply Hout; by right].
        destruct (decide (Task.label x ∈ Task.label <$> before)) as [Hin|Hout].
        { by apply elem_of_nil in Hx. }
        apply list_elem_of_singleton in Hx as ->. done.
      * intros [Hout [= ->]]. left.
        destruct (decide (Task.label t ∈ Task.label <$> before)); [done|].
        by apply list_elem_of_singleton.
    + split.
      * intros [Hx|[Hout Hhd]].
        { destruct (decide (Task.label x ∈ Task.label <$> before));
            [by apply elem_of_nil in Hx|].
          apply list_elem_of_singleton in Hx as ->. done. }
        split; [|done]. intros Hb. apply Hout. by left.
      * intros [Hout Hhd]. right. split; [|done].
        intros [Hb|Hx]; [done|]. by apply Hne.
Qed.

Lemma first_seen_after_NoDup (tasks before : list Task.t) :
  NoDup (Task.label <$> first_seen_after before tasks).
Proof.
  revert before. induction tasks as [|x l IH]; intros before.
  - unfold first_seen_after. simpl. constructor.
  - rewrite first_seen_after_cons.
    destruct (decide (Task.label x ∈ Task.label <$> before)); simpl; [apply IH|].
    apply NoDup_cons. split; [|apply IH].
    intros Hin. apply list_elem_of_fmap in Hin as (t & Hlab & Ht).
    apply elem_of_first_seen_after in Ht as [Hout _]. apply Hout.
    rewrite fmap_app, elem_of_app. right. simpl. rewrite <- Hlab. by left.
Qed.

(** X23.  [scheduled_duration] counts one task per label summary, its
    first: it is the hours of the summed durations of a list of tasks with
    pairwise different labels whose members are exactly the first tasks of
    the summaries of [label_summaries]. *)
Theorem scheduled_duration_counts_first_tasks (w : World) (self : Push.t) :
  ∃ summaries firsts,
    Push.label_summaries w self = Done summaries ∧
    Push.scheduled_duration w self = hours (sum_durations firsts) ∧
    NoDup (Task.label <$> firsts) ∧
    ∀ t, t ∈ firsts ↔
      ∃ s, summaries !! Task.label t = Some s ∧
           head (LabelSummary.tasks s) = Some t.
Proof.
  destruct (label_summaries_Done w self) as (summaries & Hs & Hlk).
  exists summaries, (first_seen_tasks (Push.tasks w self)).
  split; [done|]. split; [|split].
  - unfold Push.scheduled_duration. by rewrite scheduled_seconds.
  - apply first_seen_after_NoDup.
  - intros t. unfold first_seen_tasks. rewrite elem_of_first_seen_after.
    rewrite (Hlk (Task.label t)). split.
    + intros [_ Hhd].
      destruct (tasks_with_label (Task.label t) (Push.tasks w self)) as [|x g];
        [done|].
      eexists. split; [reflexivity|done].
    + intros (s & Hl & Hhd). split; [simpl; apply not_elem_of_nil|].
      destruct (tasks_with_label (Task.label t) (Push.tasks w self)) as [|x g];
        [done|].
      by injection Hl as <-.
Qed.

(** ** The order of the runs *)

(** X24.  A summary does not depend on the order of its tasks: two
    summaries whose task lists are permutations of each other have the same
    status, the same classifications and the same results. *)
Theorem summary_is_order_independent (s s' : LabelSummary.t) :
  LabelSummary.tasks s ≡ₚ LabelSummary.tasks s' →
  LabelSummary.status s = LabelSummary.status s' ∧
  LabelSummary.classifications s = LabelSummary.classifications s' ∧
  LabelSummary.results s = LabelSummary.results s'.
Proof.
  intros Hperm. split; [|split].
  - destruct (decide (LabelSummary.tasks s = [])) as [Hnil|Hne].
    + assert (Hnil' : LabelSummary.tasks s' = []).
      { rewrite Hnil in Hperm. by apply Permutation_nil_l in Hperm. }
      destruct s as [l ts], s' as [l' ts']. simpl in *. by subst.
    + assert (Hne' : LabelSummary.tasks s' ≠ []).
      { intros Hnil. rewrite Hnil in Hperm. by apply Permutation_nil_r in Hperm. }
      assert (Hsame : ∀ o, o ≠ INTERMITTENT →
                LabelSummary.status s = Some o ↔ LabelSummary.status s' = Some o).
      { intros o Ho. rewrite (status_agree s o Hne Ho), (status_agree s' o Hne' Ho).
        by rewrite Hperm. }
      destruct (status_is_Some s Hne) as [o Ho].
      destruct (status_is_Some s' Hne') as [o' Ho'].
      rewrite Ho, Ho'. f_equal.
      destruct o, o'; try done.
      all: try (apply (Hsame PASS) in Ho; [congruence|done]).
      all: try (apply (Hsame FAIL) in Ho; [congruence|done]).
      all: try (apply (Hsame PASS) in Ho'; [congruence|done]).
      all: try (apply (Hsame FAIL) in Ho'; [congruence|done]).
  - apply set_eq. intros c. rewrite !elem_of_classifications.
    split; intros (t & Ht & H); exists t; (split; [|done]).
    + by rewrite <- Hperm.
    + by rewrite Hperm.
  - apply set_eq. intros r. rewrite !elem_of_results.
    split; intros (t & Ht & H); exists t; (split; [|done]).
    + by rewrite <- Hperm.
    + by rewrite Hperm.
Qed.

(** A pass followed by a failure, and the failure followed by the pass. *)
Lemma summary_is_order_independent_witness :
  LabelSummary.status
    (LabelSummary.mk "L" [Task.mk "L" 5 "success" "x"; Task.mk "L" 5 "busted" "y"])
  = LabelSummary.status
      (LabelSummary.mk "L" [Task.mk "L" 5 "busted" "y"; Task.mk "L" 5 "success" "x"]).
Proof.
  refine (proj1 (summary_is_order_independent
                   (LabelSummary.mk "L" [Task.mk "L" 5 "success" "x";
                                         Task.mk "L" 5 "busted" "y"])
                   (LabelSummary.mk "L" [Task.mk "L" 5 "busted" "y";
                                         Task.mk "L" 5 "success" "x"]) _)).
  simpl. apply Permutation_swap.
Defined.

Lemma tasks_Permutation (w w' : World) (self self' : Push.t) :
  push_results w (Push.rev self) ≡ₚ push_results w' (Push.rev self') →
  Push.tasks w self ≡ₚ Push.tasks w' self'.
Proof.
  intros Hperm.
  set (g := fun kw : Kwargs =>
         match kw_label kw, kw_duration kw, kw_result kw, kw_classification kw with
         | Some l, Some d, Some r, Some c => Some (Task.mk l d r c)
         | _, _, _, _ => None
         end).
  assert (Hinv : ∀ ts : list Task.t, omap g (row_of_task <$> ts) = ts).
  { induction ts as [|[l d r c] ts IH]; [done|]. simpl. f_equal. exact IH. }
  rewrite <- (Hinv (Push.tasks w self)), <- (Hinv (Push.tasks w' self')).
  unfold Push.tasks. rewrite !tasks_loop_rows. simpl. by rewrite Hperm.
Qed.

Lemma sum_durations_Permutation (l l' : list Task.t) :
  l ≡ₚ l' → sum_durations l = sum_durations l'.
Proof.
  induction 1 as [|x l l' _ IH|x y l|l l' l'' _ IH1 _ IH2];
    unfold sum_durations in *; simpl; lia.
Qed.

(** X25.  The order of the rows of the query does not matter to
    [duration], [task_labels] and [candidate_regressions]: two pushes whose
    rows are permutations of each other agree on them.  It matters to
    [scheduled_duration], which keeps the first run of a label: with runs of
    one and of two hours for one label, it is 1 in one order and 2 in the
    other. *)
Theorem order_of_rows (w w' : World) (self self' : Push.t) :
  (push_results w (Push.rev self) ≡ₚ push_results w' (Push.rev self') →
   Push.duration w self = Push.duration w' self' ∧
   Push.task_labels w self = Push.task_labels w' self' ∧
   Push.candidate_regressions w self = Push.candidate_regressions w' self') ∧
  (push_results (Examples.world_of MoreExamples.retrigger_history) "P"
     ≡ₚ push_results (Examples.world_of MoreExamples.retrigger_history_swapped) "P" ∧
   Push.scheduled_duration (Examples.world_of MoreExamples.retrigger_history)
     (Push.new "P") = Done 1 ∧
   Push.scheduled_duration (Examples.world_of MoreExamples.retrigger_history_swapped)
     (Push.new "P") = Done 2).
Proof.
  split.
  - intros Hperm. apply tasks_Permutation in Hperm. split; [|split].
    + unfold Push.duration. rewrite !sum_loop.
      by rewrite (sum_durations_Permutation _ _ Hperm).
    + apply set_eq. intros label. rewrite !elem_of_task_labels.
      split; intros (t & Ht & H); exists t; (split; [|done]).
      * by rewrite <- Hperm.
      * by rewrite Hperm.
    + destruct (candidate_regressions_Done w self) as (m & _ & Hc).
      destruct (candidate_regressions_Done w' self') as (m' & _ & Hc').
      rewrite Hc, Hc'. f_equal. apply set_eq. intros label.
      rewrite (candidate_by_tasks w self _ label Hc),
        (candidate_by_tasks w' self' _ label Hc').
      split; intros (t & Ht & H); exists t; (split; [|done]).
      * by rewrite <- Hperm.
      * by rewrite Hperm.
  - split; [apply Permutation_swap|]. split; by vm_compute.
Qed.
